(** * relax_node: a shallow embedding of the relax deformer

    The source is [src/python/relax_node.py], a Maya deformer node written
    against the Python bindings of the Maya API.  The node's [deform] method
    moves every weighted vertex of a mesh towards the average position of the
    vertices connected to it, [iterations] times [steps] sub-passes.

    The embedding follows the source method by method.  The Maya classes the
    source calls ([MPoint], [MVector], [MPointArray], [MItMeshVertex],
    [MItGeometry], the data block) are host code: they are modelled here by
    the part of their behaviour the source relies on.  All coordinates,
    weights and scalar settings are IEEE 754 binary64 numbers, as Python
    floats and the API's [double] are; they are Rocq's primitive floats, so
    every definition evaluates. *)

From Stdlib Require Import PrimFloat ZArith Bool QArith Lqa.
From stdpp Require Import list strings.

Set Default Proof Using "Type".

(** ** Python values *)

Module Py.

(** The exceptions the method can meet: a failed [MStatus] is raised by the
    bindings as [RuntimeError], indexing an array out of range as
    [IndexError], a missing dictionary key as [KeyError]. *)
Inductive exception := RuntimeError | IndexError | KeyError.

Inductive result (A : Type) :=
| Ok (a : A)
| Raise (e : exception).
Arguments Ok {A} a.
Arguments Raise {A} e.

Definition bind {A B} (r : result A) (k : A -> result B) : result B :=
  match r with
  | Ok a => k a
  | Raise e => Raise e
  end.

(** What a caller that catches the exception is left with. *)
Definition returned {A} (r : result A) : option A :=
  match r with
  | Ok a => Some a
  | Raise _ => None
  end.

(** [for x in xs: s = body(x, s)], stopping at the first exception. *)
Fixpoint for_each {A S} (xs : list A) (body : A -> S -> result S) (s : S)
  : result S :=
  match xs with
  | [] => Ok s
  | x :: xs' => bind (body x s) (for_each xs' body)
  end.

(** [range(n)] for an integer [n]: empty when [n <= 0]. *)
Definition range (n : Z) : list Z := Z.of_nat <$> seq 0 (Z.to_nat n).

(** Truth value of a float ([x != 0.0]: both zeros are false, a NaN is
    true) and of an integer. *)
Definition truthy_float (x : float) : bool := negb (PrimFloat.eqb x 0%float).
Definition truthy_int (n : Z) : bool := negb (n =? 0)%Z.

(** Conversion of an integer to a double, exact below 2^53 (the source only
    converts C [int] and [unsigned int] values). *)
Fixpoint float_of_positive (p : positive) : float :=
  match p with
  | xH => 1%float
  | xO q => (2 * float_of_positive q)%float
  | xI q => (2 * float_of_positive q + 1)%float
  end.

Definition float_of_Z (n : Z) : float :=
  match n with
  | Z0 => 0%float
  | Zpos p => float_of_positive p
  | Zneg p => (- float_of_positive p)%float
  end.

Definition float_of_nat (n : nat) : float := float_of_Z (Z.of_nat n).

(** A dictionary with integer keys, by its items in the order in which the
    keys were first inserted: [d[k] = v] replaces the value of a key that is
    there and appends a key that is not, and [for k in d] walks the keys in
    that order. *)
Record dict (V : Type) := Dict { items : list (nat * V) }.
Arguments Dict {V} items.
Arguments items {V} d.

Fixpoint items_get {V} (k : nat) (l : list (nat * V)) : option V :=
  match l with
  | [] => None
  | (k', v) :: l' => if decide (k' = k) then Some v else items_get k l'
  end.

Fixpoint items_set {V} (k : nat) (v : V) (l : list (nat * V))
  : list (nat * V) :=
  match l with
  | [] => [(k, v)]
  | (k', v') :: l' =>
      if decide (k' = k) then (k', v) :: l' else (k', v') :: items_set k v l'
  end.

#[global] Instance dict_lookup {V} : Lookup nat V (dict V) :=
  fun k d => items_get k (items d).
#[global] Instance dict_insert {V} : Insert nat V (dict V) :=
  fun k v d => Dict (items_set k v (items d)).
#[global] Instance dict_empty {V} : Empty (dict V) := Dict [].
#[global] Instance dict_singleton {V} : SingletonM nat V (dict V) :=
  fun k v => Dict [(k, v)].

(** [not d]: is the dictionary empty? *)
#[global] Instance dict_empty_dec {V} (d : dict V) : Decision (d = ∅).
Proof.
  destruct d as [[|kv l]]; [left; reflexivity | right; discriminate].
Defined.

(** [d[k]] on a dictionary. *)
Definition dict_get {V} (d : dict V) (k : nat) : result V :=
  match d !! k with
  | Some v => Ok v
  | None => Raise KeyError
  end.

(** The keys as [for k in d] walks them. *)
Definition dict_keys {V} (d : dict V) : list nat := (items d).*1.

End Py.

Export Py.

#[global] Instance result_bind : MBind result :=
  fun A B k r => Py.bind r k.
#[global] Instance result_ret : MRet result := @Py.Ok.

(** ** The Maya value types the source computes with *)

Module OpenMaya.

(** Points and vectors by their cartesian coordinates.  (An [MPoint] also
    carries a homogeneous coordinate; it is 1 for every point of a mesh and
    for [MPoint()], and no operation below changes it.) *)
Record MPoint := mkPoint { px : float; py : float; pz : float }.
Record MVector := mkVector { vx : float; vy : float; vz : float }.

(** [MPoint()] *)
Definition MPoint_new : MPoint := mkPoint 0 0 0.
(** [MVector(p)] *)
Definition MVector_of (p : MPoint) : MVector := mkVector (px p) (py p) (pz p).
(** [p += v] and [p + v] *)
Definition MPoint_add (p : MPoint) (v : MVector) : MPoint :=
  mkPoint (px p + vx v) (py p + vy v) (pz p + vz v).
(** [p / d] *)
Definition MPoint_div (p : MPoint) (d : float) : MPoint :=
  mkPoint (px p / d) (py p / d) (pz p / d).
(** [p - q] *)
Definition MPoint_sub (p q : MPoint) : MVector :=
  mkVector (px p - px q) (py p - py q) (pz p - pz q).
(** [v * d] *)
Definition MVector_mul (v : MVector) (d : float) : MVector :=
  mkVector (vx v * d) (vy v * d) (vz v * d).
(** [v / d] *)
Definition MVector_div (v : MVector) (d : float) : MVector :=
  mkVector (vx v / d) (vy v / d) (vz v / d).

(** [MPointArray]: [a[i]] raises [IndexError] out of range, [a.set(p, i)]
    fails out of range, [a.copy(b)] and [MPointArray(b)] duplicate [b]. *)
Abbreviation MPointArray := (list MPoint).

Definition MPointArray_get (a : MPointArray) (i : nat) : result MPoint :=
  match a !! i with
  | Some p => Ok p
  | None => Raise IndexError
  end.

Definition MPointArray_set (a : MPointArray) (p : MPoint) (i : nat)
  : result MPointArray :=
  if decide (i < length a) then Ok (<[i := p]> a) else Raise RuntimeError.

(** [MItMeshVertex]: the vertices of a mesh, each with the indices of the
    vertices connected to it, and a cursor.  [setIndex] fails on an index
    that is not a vertex of the mesh. *)
Record MItMeshVertex := mkItMeshVertex {
  mesh : list (list nat);
  cursor : nat
}.

Definition MItMeshVertex_new (input_mesh : list (list nat)) : MItMeshVertex :=
  mkItMeshVertex input_mesh 0.

Definition setIndex (it : MItMeshVertex) (index : nat) : result MItMeshVertex :=
  if decide (index < length (mesh it))
  then Ok (mkItMeshVertex (mesh it) index)
  else Raise RuntimeError.

Definition getConnectedVertices (it : MItMeshVertex) : list nat :=
  default [] (mesh it !! cursor it).

(** [MItGeometry]: the components still to visit and the points of the
    geometry it iterates, which [setAllPositions] overwrites. *)
Record MItGeometry := mkItGeometry {
  components : list nat;
  geometry : MPointArray
}.

Definition allPositions (it : MItGeometry) : MPointArray := geometry it.
Definition setAllPositions (it : MItGeometry) (ps : MPointArray) : MItGeometry :=
  mkItGeometry (components it) ps.

(** The data block: the node's attribute values, the deformer weights of
    each geometry and the input mesh of each geometry. *)
Record MDataBlock := mkDataBlock {
  envelope : float;
  iterations : Z;
  steps : Z;
  strength : float;
  weightValue : nat -> nat -> float;
  inputGeom : nat -> list (list nat)
}.

End OpenMaya.

Export OpenMaya.

(** ** The node *)

Module RelaxNode.

(** [get_input_mesh] (lines 74-82) *)
Definition get_input_mesh (data : MDataBlock) (geom_index : nat)
  : list (list nat) :=
  inputGeom data geom_index.

(** [get_component_average_position] (lines 84-103).  [vtx_iterator] and
    [all_positions] are the attributes of [self] the method reads. *)
Definition get_component_average_position
    (vtx_iterator : MItMeshVertex) (all_positions : MPointArray)
    (vtx_index : nat) : result MPoint :=
  vtx_iterator ← setIndex vtx_iterator vtx_index;
  let vertices := getConnectedVertices vtx_iterator in
  total_pos ← for_each vertices
    (fun j total_pos =>
       p ← MPointArray_get all_positions j;
       Ok (MPoint_add total_pos (MVector_of p)))
    MPoint_new;
  Ok (MPoint_div total_pos (float_of_nat (length vertices))).

(** [get_weighted_componenents] (lines 105-125): the loop runs until the
    geometry iterator is done, and leaves it there. *)
Fixpoint weighted_components_loop (weight_of : nat -> float)
    (remaining : list nat) (weights : dict float) : dict float :=
  match remaining with
  | [] => weights
  | index :: rest =>
      let weight := weight_of index in
      let weights :=
        if truthy_float weight then <[index := weight]> weights else weights in
      weighted_components_loop weight_of rest weights
  end.

Definition get_weighted_componenents
    (geom_iter : MItGeometry) (geom_index : nat) (data : MDataBlock)
  : dict float * MItGeometry :=
  (weighted_components_loop (weightValue data geom_index)
     (components geom_iter) ∅,
   mkItGeometry [] (geometry geom_iter)).

(** Lines 174-186: the body of [for index in comp_weight_data]. *)
Definition relax_component
    (vtx_iterator : MItMeshVertex) (all_positions : MPointArray)
    (comp_weight_data : dict float)
    (env_value strength_value : float) (steps_value step : Z)
    (index : nat) (new_positions : MPointArray) : result MPointArray :=
  weight ← dict_get comp_weight_data index;
  current_pos ← MPointArray_get all_positions index;
  average_pos ←
    get_component_average_position vtx_iterator all_positions index;
  let offset_pos :=
    MVector_mul
      (MVector_mul (MVector_mul (MPoint_sub average_pos current_pos) weight)
         env_value)
      strength_value in
  let new_pos :=
    MPoint_add current_pos
      (MVector_div offset_pos (float_of_Z (steps_value - step))) in
  MPointArray_set new_positions new_pos index.

(** Lines 175-183 on their own: the point [relax_component] writes at
    [index], a function of the snapshot [all_positions] only. *)
Definition new_position
    (vtx_iterator : MItMeshVertex) (all_positions : MPointArray)
    (comp_weight_data : dict float)
    (env_value strength_value : float) (steps_value step : Z)
    (index : nat) : result MPoint :=
  weight ← dict_get comp_weight_data index;
  current_pos ← MPointArray_get all_positions index;
  average_pos ←
    get_component_average_position vtx_iterator all_positions index;
  let offset_pos :=
    MVector_mul
      (MVector_mul (MVector_mul (MPoint_sub average_pos current_pos) weight)
         env_value)
      strength_value in
  Ok (MPoint_add current_pos
        (MVector_div offset_pos (float_of_Z (steps_value - step)))).

(** Lines 169-189: one sub-pass over the keys of the weight dictionary,
    visited in the order [keys]. *)
Definition sub_pass_in_order (keys : list nat)
    (vtx_iterator : MItMeshVertex) (comp_weight_data : dict float)
    (env_value strength_value : float) (steps_value step : Z)
    (all_positions : MPointArray) : result MPointArray :=
  let new_positions := all_positions in
  for_each keys
    (relax_component vtx_iterator all_positions comp_weight_data
       env_value strength_value steps_value step)
    new_positions.

Definition sub_pass
    (vtx_iterator : MItMeshVertex) (comp_weight_data : dict float)
    (env_value strength_value : float) (steps_value step : Z)
    (all_positions : MPointArray) : result MPointArray :=
  sub_pass_in_order (dict_keys comp_weight_data)
    vtx_iterator comp_weight_data env_value strength_value
    steps_value step all_positions.

(** Lines 168-189: [for step in range(steps_value)]. *)
Definition iteration
    (vtx_iterator : MItMeshVertex) (comp_weight_data : dict float)
    (env_value strength_value : float) (steps_value : Z)
    (all_positions : MPointArray) : result MPointArray :=
  for_each (range steps_value)
    (sub_pass vtx_iterator comp_weight_data env_value strength_value
       steps_value)
    all_positions.

(** Lines 167-189: [for i in range(iter_value)]. *)
Definition relax
    (vtx_iterator : MItMeshVertex) (comp_weight_data : dict float)
    (env_value strength_value : float) (iter_value steps_value : Z)
    (all_positions : MPointArray) : result MPointArray :=
  for_each (range iter_value)
    (fun _ =>
       iteration vtx_iterator comp_weight_data env_value strength_value
         steps_value)
    all_positions.

(** [deform] (lines 127-194).  The result pairs what the call returns or
    raises with the geometry iterator as the call leaves it; [matrix] is not
    used by the method. *)
Definition deform (data : MDataBlock) (geom_iter : MItGeometry)
    (geom_index : nat) : result bool * MItGeometry :=
  let env_value := envelope data in
  if negb (truthy_float env_value) then (Ok false, geom_iter) else
  let iter_value := iterations data in
  if negb (truthy_int iter_value) then (Ok false, geom_iter) else
  let steps_value := steps data in
  if negb (truthy_int steps_value) then (Ok false, geom_iter) else
  let strength_value := strength data in
  if negb (truthy_float strength_value) then (Ok false, geom_iter) else
  let '(comp_weight_data, geom_iter) :=
    get_weighted_componenents geom_iter geom_index data in
  if bool_decide (comp_weight_data = ∅) then (Ok false, geom_iter) else
  let input_mesh := get_input_mesh data geom_index in
  let vtx_iterator := MItMeshVertex_new input_mesh in
  let all_positions := allPositions geom_iter in
  match relax vtx_iterator comp_weight_data env_value strength_value
          iter_value steps_value all_positions with
  | Raise e => (Raise e, geom_iter)
  | Ok all_positions => (Ok true, setAllPositions geom_iter all_positions)
  end.

End RelaxNode.

Export RelaxNode.

(** ** A four-vertex ring, the scenario of the specification *)

Module Ring.

Open Scope float_scope.

(** 0-1-2-3-0: every vertex is connected to its two ring neighbours. *)
Definition ring_mesh : list (list nat) :=
  [[1; 3]; [0; 2]; [1; 3]; [0; 2]]%nat.

Definition ring_points : MPointArray :=
  [mkPoint 0 0 0; mkPoint 1 0 0; mkPoint 1 1 0; mkPoint 0 1 0].

Definition ring_iter : MItGeometry := mkItGeometry [0; 1; 2; 3]%nat ring_points.

(** Weight 1 on vertex 0, weight 0 elsewhere. *)
Definition weight_on_0 (geom_index index : nat) : float :=
  match index with
  | O => 1
  | _ => 0
  end.

Definition ring_data (env str : float) (iters stps : Z) : MDataBlock :=
  mkDataBlock env iters stps str weight_on_0 (fun _ => ring_mesh).

End Ring.



(** ** What the specification says, in its own words *)

Module Spec.

(** "a plain arithmetic mean of neighbor positions": their sum divided by
    their number. *)
Definition sum (ps : list MPoint) : MPoint :=
  foldl (fun total p => MPoint_add total (MVector_of p)) MPoint_new ps.

Definition mean (ps : list MPoint) : MPoint :=
  MPoint_div (sum ps) (float_of_nat (length ps)).

(** [offset = (avg - positions[v]) * w * envelope * strength] *)
Definition offset (avg pos : MPoint) (w env str : float) : MVector :=
  MVector_mul (MVector_mul (MVector_mul (MPoint_sub avg pos) w) env) str.

(** [newPositions[v] = positions[v] + offset / divisor] *)
Definition update (pos avg : MPoint) (w env str : float) (divisor : Z) : MPoint :=
  MPoint_add pos (MVector_div (offset avg pos w env str) (float_of_Z divisor)).

(** The positions of the vertices [nbrs] in the buffer [positions]. *)
Definition positions_of (positions : MPointArray) (nbrs : list nat)
  : option (list MPoint) :=
  mapM (fun n => positions !! n) nbrs.

(** The schedule the specification rules out: [steps] sub-passes that all
    divide by [steps] (the source's sub-pass run with [step = 0] each time). *)
Definition uniform_iteration
    (vtx_iterator : MItMeshVertex) (comp_weight_data : dict float)
    (env_value strength_value : float) (steps_value : Z)
    (all_positions : MPointArray) : result MPointArray :=
  for_each (range steps_value)
    (fun _ =>
       sub_pass vtx_iterator comp_weight_data env_value strength_value
         steps_value 0)
    all_positions.

(** The buffers the computation goes through: [all_positions] after any
    number of sub-passes, whatever their [steps_value] and [step]. *)
Inductive after_sub_passes
    (vtx_iterator : MItMeshVertex) (comp_weight_data : dict float)
    (env_value strength_value : float) (start : MPointArray)
  : MPointArray -> Prop :=
| asp_start :
    after_sub_passes vtx_iterator comp_weight_data env_value strength_value
      start start
| asp_pass steps_value step positions positions' :
    after_sub_passes vtx_iterator comp_weight_data env_value strength_value
      start positions ->
    sub_pass vtx_iterator comp_weight_data env_value strength_value
      steps_value step positions = Ok positions' ->
    after_sub_passes vtx_iterator comp_weight_data env_value strength_value
      start positions'.

(** "fixed vertex count, valid edges": every component the deformer visits
    is a vertex of the mesh with a position, and every connected vertex has a
    position. *)
Definition valid_indices (input_mesh : list (list nat))
    (comps : list nat) (positions : MPointArray) : Prop :=
  Forall (fun v => v < length positions /\ v < length input_mesh) comps /\
  Forall (Forall (fun j => j < length positions)) input_mesh.

(** The same for a weight dictionary: its keys are vertices of the mesh with
    a position in [positions]. *)
Definition indices_ok (vtx_iterator : MItMeshVertex)
    (comp_weight_data : dict float) (positions : MPointArray) : Prop :=
  (forall v, is_Some (comp_weight_data !! v) ->
             v < length positions /\ v < length (mesh vtx_iterator)) /\
  Forall (Forall (fun j => j < length positions)) (mesh vtx_iterator).

(** "the variance of vertex positions relative to their neighbor averages":
    the sum over the vertices of the squared distance between a vertex and
    the average of the vertices connected to it. *)
Definition squared_norm (v : MVector) : float :=
  (vx v * vx v + vy v * vy v + vz v * vz v)%float.

Definition deviation (input_mesh : list (list nat)) (positions : MPointArray)
  : result float :=
  for_each (seq 0 (length positions))
    (fun v total =>
       pos ← MPointArray_get positions v;
       avg ← get_component_average_position
               (MItMeshVertex_new input_mesh) positions v;
       Ok (total + squared_norm (MPoint_sub pos avg))%float)
    0%float.

End Spec.

(** ** A ring with one more vertex that no edge reaches *)

Module Isolated.

Open Scope float_scope.

Definition isolated_mesh : list (list nat) :=
  [[1; 3]; [0; 2]; [1; 3]; [0; 2]; []]%nat.

Definition isolated_points : MPointArray :=
  [mkPoint 0 0 0; mkPoint 1 0 0; mkPoint 1 1 0; mkPoint 0 1 0; mkPoint 5 5 5].

Definition isolated_iter : MItGeometry :=
  mkItGeometry [0; 1; 2; 3; 4]%nat isolated_points.

(** Weight 1 on the isolated vertex 4 only. *)
Definition weight_on_4 (geom_index index : nat) : float :=
  match index with
  | 4%nat => 1
  | _ => 0
  end.

Definition isolated_data : MDataBlock :=
  mkDataBlock 1 1 1 1 weight_on_4 (fun _ => isolated_mesh).

End Isolated.

(** ** A ring whose last vertex names a vertex that does not exist *)

Module Dangling.

Open Scope float_scope.

Definition dangling_mesh : list (list nat) :=
  [[1; 3]; [0; 2]; [1; 3]; [0; 5]]%nat.

Definition dangling_data : MDataBlock :=
  mkDataBlock 1 2 3 1 (fun _ _ => 1) (fun _ => dangling_mesh).

End Dangling.

(** ** A cube, every vertex weighted 1 *)

Module Cube.

Open Scope float_scope.

(** Vertex [i] has the bits of [i] as coordinates of the unit cube; two
    vertices are connected when they differ in one bit. *)
Definition cube_mesh : list (list nat) :=
  [[1; 2; 4]; [0; 3; 5]; [0; 3; 6]; [1; 2; 7];
   [0; 5; 6]; [1; 4; 7]; [2; 4; 7]; [3; 5; 6]]%nat.

(** The vertices with an even number of set bits at [(1,0,0)], the others at
    [(-1,0,0)]: the two ends of every edge are on opposite sides. *)
Definition alternating : MPointArray :=
  [mkPoint 1 0 0; mkPoint (-1) 0 0; mkPoint (-1) 0 0; mkPoint 1 0 0;
   mkPoint (-1) 0 0; mkPoint 1 0 0; mkPoint 1 0 0; mkPoint (-1) 0 0].

(** The same configuration mirrored. *)
Definition mirrored : MPointArray :=
  [mkPoint (-1) 0 0; mkPoint 1 0 0; mkPoint 1 0 0; mkPoint (-1) 0 0;
   mkPoint 1 0 0; mkPoint (-1) 0 0; mkPoint (-1) 0 0; mkPoint 1 0 0].

Definition cube_iter : MItGeometry :=
  mkItGeometry [0; 1; 2; 3; 4; 5; 6; 7]%nat alternating.

Definition cube_data (iters stps : Z) : MDataBlock :=
  mkDataBlock 1 iters stps 1 (fun _ _ => 1) (fun _ => cube_mesh).

(** The configuration after [n] iterations with [steps = 1]. *)
Definition after_iterations (n : nat) : MPointArray :=
  if Nat.even n then alternating else mirrored.

(** All eight vertices at the origin. *)
Definition flattened : MPointArray := replicate 8 (mkPoint 0 0 0).

(** Eight points in no special position. *)
Definition skewed : MPointArray :=
  [mkPoint 0 0 0; mkPoint 2 0 1; mkPoint 0 3 0; mkPoint 1 1 0;
   mkPoint 0 0 5; mkPoint 1 0 1; mkPoint 0 1 1; mkPoint 4 1 1].

(** The variance of the points [deform] leaves on the cube started at
    [positions]. *)
Definition variance_after (iters stps : Z) (positions : MPointArray)
  : result float :=
  Spec.deviation cube_mesh
    (geometry (deform (cube_data iters stps)
                 (mkItGeometry [0; 1; 2; 3; 4; 5; 6; 7]%nat positions) 0).2).

(** Each of the variances is less than the one before it. *)
Fixpoint decreasing (variances : list (result float)) : bool :=
  match variances with
  | Ok a :: rest =>
      match rest with
      | [] => true
      | Ok b :: _ => PrimFloat.ltb b a && decreasing rest
      | Raise _ :: _ => false
      end
  | Raise _ :: _ => false
  | [] => true
  end.

End Cube.


(** ** The attributes of the node *)

Module Attributes.

(** [MFnNumericData.kFloat] and [MFnNumericData.kInt] *)
Inductive MFnNumericData := kFloat | kInt.

(** The number handed to [setDefault]: a Python float or a Python int. *)
Inductive number := Float (x : float) | Int (n : Z).

(** A numeric attribute as the function set [MFnNumericAttribute] edits it:
    [create] makes it with the default 0 of its type, not keyable and without
    bounds; the setters change the attribute the function set was last
    attached to. *)
Record numeric_attribute := mkNumericAttribute {
  long_name : string;
  brief_name : string;
  numeric_type : MFnNumericData;
  keyable : bool;
  minimum : option float;
  maximum : option float;
  default_value : number
}.

Definition create (name brief : string) (type : MFnNumericData)
  : numeric_attribute :=
  mkNumericAttribute name brief type false None None
    match type with
    | kFloat => Float 0
    | kInt => Int 0
    end.

Definition setKeyable (a : numeric_attribute) (b : bool) : numeric_attribute :=
  mkNumericAttribute (long_name a) (brief_name a) (numeric_type a) b
    (minimum a) (maximum a) (default_value a).

Definition setMin (a : numeric_attribute) (x : float) : numeric_attribute :=
  mkNumericAttribute (long_name a) (brief_name a) (numeric_type a) (keyable a)
    (Some x) (maximum a) (default_value a).

Definition setMax (a : numeric_attribute) (x : float) : numeric_attribute :=
  mkNumericAttribute (long_name a) (brief_name a) (numeric_type a) (keyable a)
    (minimum a) (Some x) (default_value a).

Definition setDefault (a : numeric_attribute) (x : number) : numeric_attribute :=
  mkNumericAttribute (long_name a) (brief_name a) (numeric_type a) (keyable a)
    (minimum a) (maximum a) x.

(** What [node_init] leaves on the class: the attributes added, which
    attribute affects which, and what was made paintable. *)
Record node_class := mkNodeClass {
  attributes : list numeric_attribute;
  affects : list (string * string);
  paintable : list (string * string)
}.

Definition addAttribute (cls : node_class) (a : numeric_attribute)
  : node_class :=
  mkNodeClass (attributes cls ++ [a]) (affects cls) (paintable cls).

Definition attributeAffects (cls : node_class) (a : numeric_attribute)
    (output : string) : node_class :=
  mkNodeClass (attributes cls) (affects cls ++ [(long_name a, output)])
    (paintable cls).

Definition makePaintable (cls : node_class) (node attr : string) : node_class :=
  mkNodeClass (attributes cls) (affects cls) (paintable cls ++ [(node, attr)]).

Definition kPluginNodeName : string := "relaxNode".

(** [node_init] (lines 36-71) *)
Definition node_init : node_class :=
  let cls := mkNodeClass [] [] [] in
  let strength_attr := create "strength" "str" kFloat in
  let strength_attr := setKeyable strength_attr true in
  let strength_attr := setMin strength_attr 0 in
  let strength_attr := setMax strength_attr 1 in
  let strength_attr := setDefault strength_attr (Float 0.5) in
  let cls := addAttribute cls strength_attr in
  let iteration_attr := create "iterations" "itr" kInt in
  let iteration_attr := setKeyable iteration_attr true in
  let iteration_attr := setMin iteration_attr 0 in
  let iteration_attr := setDefault iteration_attr (Int 0) in
  let cls := addAttribute cls iteration_attr in
  let steps_attr := create "steps" "stp" kInt in
  let steps_attr := setKeyable steps_attr true in
  let steps_attr := setMin steps_attr 0 in
  let steps_attr := setDefault steps_attr (Int 3) in
  let cls := addAttribute cls steps_attr in
  let outputGeom := "outputGeom" in
  let cls := attributeAffects cls strength_attr outputGeom in
  let cls := attributeAffects cls iteration_attr outputGeom in
  let cls := attributeAffects cls steps_attr outputGeom in
  makePaintable cls kPluginNodeName "weights".

(** [data.inputValue(attr).asFloat()] and [.asInt()] on an attribute nobody
    has set or connected: its default. *)
Definition find_attribute (cls : node_class) (name : string)
  : option numeric_attribute :=
  head (filter (fun a => long_name a = name) (attributes cls)).

Definition default_float (cls : node_class) (name : string) : option float :=
  match default_value <$> find_attribute cls name with
  | Some (Float x) => Some x
  | _ => None
  end.

Definition default_int (cls : node_class) (name : string) : option Z :=
  match default_value <$> find_attribute cls name with
  | Some (Int n) => Some n
  | _ => None
  end.

(** The data block of a node whose three attributes are at their defaults;
    the envelope, the weights and the input mesh come from the host. *)
Definition untouched_block (cls : node_class) (env : float)
    (weights : nat -> nat -> float) (input : nat -> list (list nat))
  : option MDataBlock :=
  str ← default_float cls "strength";
  iters ← default_int cls "iterations";
  stps ← default_int cls "steps";
  Some (mkDataBlock env iters stps str weights input).

End Attributes.

(** ** Vocabulary for the further properties *)

Module Reach.

(** The component [v] can be relaxed in [positions]: it is a vertex of the
    mesh with a position, and so are the vertices connected to it. *)
Definition component_ok (vtx_iterator : MItMeshVertex)
    (positions : MPointArray) (v : nat) : bool :=
  bool_decide (v < length positions) &&
  match mesh vtx_iterator !! v with
  | Some nbrs => forallb (fun j => bool_decide (j < length positions)) nbrs
  | None => false
  end.

Definition keys_ok (vtx_iterator : MItMeshVertex)
    (comp_weight_data : dict float) (positions : MPointArray) : bool :=
  forallb (component_ok vtx_iterator positions) (dict_keys comp_weight_data).

(** The weighted vertices and the vertices connected to them. *)
Definition region (vtx_iterator : MItMeshVertex)
    (comp_weight_data : dict float) : list nat :=
  dict_keys comp_weight_data
  ++ flat_map (fun u => default [] (mesh vtx_iterator !! u))
       (dict_keys comp_weight_data).

(** Two buffers hold the same points at the indices [vs] (or both none). *)
Definition agree_on (vs : list nat) (P P' : MPointArray) : Prop :=
  Forall (fun v => P !! v = P' !! v) vs.

(** The same relation on what two runs return or raise. *)
Definition agree_results (vs : list nat) (r r' : result MPointArray) : Prop :=
  match r, r' with
  | Ok Q, Ok Q' => agree_on vs Q Q'
  | Raise e, Raise e' => e = e'
  | _, _ => False
  end.

(** The data block with another iteration count. *)
Definition with_iterations (data : MDataBlock) (n : Z) : MDataBlock :=
  mkDataBlock (envelope data) n (steps data) (strength data)
    (weightValue data) (inputGeom data).

End Reach.

(** ** The relaxation in exact arithmetic

    Whether iterating smooths is a question about the numbers the method
    computes, not about their rounding.  [Exact] is the same method with
    rationals where the source has doubles: the definitions below are those
    of the same names above with [Q] for [float].  (A division by zero is 0
    here and not a NaN; on the cube no vertex is without neighbours and no
    divisor is 0.) *)

Module Exact.

Local Open Scope Q_scope.

Record QPoint := mkQPoint { qx : Q; qy : Q; qz : Q }.
Record QVector := mkQVector { ux : Q; uy : Q; uz : Q }.

Definition QPoint_new : QPoint := mkQPoint 0 0 0.
Definition QVector_of (p : QPoint) : QVector := mkQVector (qx p) (qy p) (qz p).
Definition QPoint_add (p : QPoint) (v : QVector) : QPoint :=
  mkQPoint (qx p + ux v) (qy p + uy v) (qz p + uz v).
Definition QPoint_div (p : QPoint) (d : Q) : QPoint :=
  mkQPoint (qx p / d) (qy p / d) (qz p / d).
Definition QPoint_sub (p q : QPoint) : QVector :=
  mkQVector (qx p - qx q) (qy p - qy q) (qz p - qz q).
Definition QVector_mul (v : QVector) (d : Q) : QVector :=
  mkQVector (ux v * d) (uy v * d) (uz v * d).
Definition QVector_div (v : QVector) (d : Q) : QVector :=
  mkQVector (ux v / d) (uy v / d) (uz v / d).

Abbreviation QPointArray := (list QPoint).

Definition QPointArray_get (a : QPointArray) (i : nat) : result QPoint :=
  match a !! i with
  | Some p => Ok p
  | None => Raise IndexError
  end.

Definition QPointArray_set (a : QPointArray) (p : QPoint) (i : nat)
  : result QPointArray :=
  if decide (i < length a)%nat then Ok (<[i := p]> a) else Raise RuntimeError.

Record QItGeometry := mkQItGeometry {
  qcomponents : list nat;
  qgeometry : QPointArray
}.

Record QDataBlock := mkQDataBlock {
  qenvelope : Q;
  qiterations : Z;
  qsteps : Z;
  qstrength : Q;
  qweightValue : nat -> nat -> Q;
  qinputGeom : nat -> list (list nat)
}.

Definition truthy_Q (x : Q) : bool := negb (Qeq_bool x 0).

(** Lines 84-103 *)
Definition get_component_average_position
    (vtx_iterator : MItMeshVertex) (all_positions : QPointArray)
    (vtx_index : nat) : result QPoint :=
  vtx_iterator ← setIndex vtx_iterator vtx_index;
  let vertices := getConnectedVertices vtx_iterator in
  total_pos ← for_each vertices
    (fun j total_pos =>
       p ← QPointArray_get all_positions j;
       Ok (QPoint_add total_pos (QVector_of p)))
    QPoint_new;
  Ok (QPoint_div total_pos (inject_Z (Z.of_nat (length vertices)))).

(** Lines 105-125 *)
Fixpoint weighted_components_loop (weight_of : nat -> Q)
    (remaining : list nat) (weights : dict Q) : dict Q :=
  match remaining with
  | [] => weights
  | index :: rest =>
      let weight := weight_of index in
      let weights :=
        if truthy_Q weight then <[index := weight]> weights else weights in
      weighted_components_loop weight_of rest weights
  end.

Definition get_weighted_componenents
    (geom_iter : QItGeometry) (geom_index : nat) (data : QDataBlock)
  : dict Q * QItGeometry :=
  (weighted_components_loop (qweightValue data geom_index)
     (qcomponents geom_iter) ∅,
   mkQItGeometry [] (qgeometry geom_iter)).

(** Lines 174-186 *)
Definition relax_component
    (vtx_iterator : MItMeshVertex) (all_positions : QPointArray)
    (comp_weight_data : dict Q)
    (env_value strength_value : Q) (steps_value step : Z)
    (index : nat) (new_positions : QPointArray) : result QPointArray :=
  weight ← dict_get comp_weight_data index;
  current_pos ← QPointArray_get all_positions index;
  average_pos ←
    get_component_average_position vtx_iterator all_positions index;
  let offset_pos :=
    QVector_mul
      (QVector_mul (QVector_mul (QPoint_sub average_pos current_pos) weight)
         env_value)
      strength_value in
  let new_pos :=
    QPoint_add current_pos
      (QVector_div offset_pos (inject_Z (steps_value - step))) in
  QPointArray_set new_positions new_pos index.

(** Lines 169-189 *)
Definition sub_pass
    (vtx_iterator : MItMeshVertex) (comp_weight_data : dict Q)
    (env_value strength_value : Q) (steps_value step : Z)
    (all_positions : QPointArray) : result QPointArray :=
  let new_positions := all_positions in
  for_each (dict_keys comp_weight_data)
    (relax_component vtx_iterator all_positions comp_weight_data
       env_value strength_value steps_value step)
    new_positions.

(** Lines 168-189 *)
Definition iteration
    (vtx_iterator : MItMeshVertex) (comp_weight_data : dict Q)
    (env_value strength_value : Q) (steps_value : Z)
    (all_positions : QPointArray) : result QPointArray :=
  for_each (range steps_value)
    (sub_pass vtx_iterator comp_weight_data env_value strength_value
       steps_value)
    all_positions.

(** Lines 167-189 *)
Definition relax
    (vtx_iterator : MItMeshVertex) (comp_weight_data : dict Q)
    (env_value strength_value : Q) (iter_value steps_value : Z)
    (all_positions : QPointArray) : result QPointArray :=
  for_each (range iter_value)
    (fun _ =>
       iteration vtx_iterator comp_weight_data env_value strength_value
         steps_value)
    all_positions.

(** Lines 127-194 *)
Definition deform (data : QDataBlock) (geom_iter : QItGeometry)
    (geom_index : nat) : result bool * QItGeometry :=
  let env_value := qenvelope data in
  if negb (truthy_Q env_value) then (Ok false, geom_iter) else
  let iter_value := qiterations data in
  if negb (truthy_int iter_value) then (Ok false, geom_iter) else
  let steps_value := qsteps data in
  if negb (truthy_int steps_value) then (Ok false, geom_iter) else
  let strength_value := qstrength data in
  if negb (truthy_Q strength_value) then (Ok false, geom_iter) else
  let '(comp_weight_data, geom_iter) :=
    get_weighted_componenents geom_iter geom_index data in
  if bool_decide (comp_weight_data = ∅) then (Ok false, geom_iter) else
  let input_mesh := qinputGeom data geom_index in
  let vtx_iterator := MItMeshVertex_new input_mesh in
  let all_positions := qgeometry geom_iter in
  match relax vtx_iterator comp_weight_data env_value strength_value
          iter_value steps_value all_positions with
  | Raise e => (Raise e, geom_iter)
  | Ok all_positions => (Ok true, mkQItGeometry (qcomponents geom_iter)
                                    all_positions)
  end.

(** The variance of the positions relative to the neighbour averages, as
    [Spec.deviation]. *)
Definition squared_norm (v : QVector) : Q :=
  ux v * ux v + uy v * uy v + uz v * uz v.

Definition deviation (input_mesh : list (list nat)) (positions : QPointArray)
  : result Q :=
  for_each (seq 0 (length positions))
    (fun v total =>
       pos ← QPointArray_get positions v;
       avg ← get_component_average_position
               (MItMeshVertex_new input_mesh) positions v;
       Ok (total + squared_norm (QPoint_sub pos avg)))
    0.

(** The cube of [Cube], every weight, the envelope and the strength 1, on
    the points [positions]. *)
Definition cube_data (iters stps : Z) : QDataBlock :=
  mkQDataBlock 1 iters stps 1 (fun _ _ => 1) (fun _ => Cube.cube_mesh).

Definition cube_iter (positions : QPointArray) : QItGeometry :=
  mkQItGeometry [0; 1; 2; 3; 4; 5; 6; 7]%nat positions.

(** The points [deform] leaves on the cube after [n] iterations. *)
Definition smoothed (n : nat) (stps : Z) (positions : QPointArray)
  : QPointArray :=
  qgeometry (deform (cube_data (Z.of_nat n) stps) (cube_iter positions) 0).2.

(** The unit cube and, as in [Cube], the alternating configuration. *)
Definition unit_cube : QPointArray :=
  [mkQPoint 0 0 0; mkQPoint 1 0 0; mkQPoint 0 1 0; mkQPoint 1 1 0;
   mkQPoint 0 0 1; mkQPoint 1 0 1; mkQPoint 0 1 1; mkQPoint 1 1 1].

Definition alternating : QPointArray :=
  [mkQPoint 1 0 0; mkQPoint (-1) 0 0; mkQPoint (-1) 0 0; mkQPoint 1 0 0;
   mkQPoint (-1) 0 0; mkQPoint 1 0 0; mkQPoint 1 0 0; mkQPoint (-1) 0 0].

(** *** The cube, one coordinate at a time

    A coordinate of the eight points is a function from the vertices to the
    rationals.  [nbr_sum] adds it up over the three vertices connected to a
    vertex of [Cube.cube_mesh], [residual] is what separates a vertex from
    the average of these, and [pass b] is what a sub-pass with divisor [1/b]
    does to the coordinate. *)
Definition nbr_sum (x : nat -> Q) (v : nat) : Q :=
  match v with
  | 0%nat => x 1%nat + x 2%nat + x 4%nat
  | 1%nat => x 0%nat + x 3%nat + x 5%nat
  | 2%nat => x 0%nat + x 3%nat + x 6%nat
  | 3%nat => x 1%nat + x 2%nat + x 7%nat
  | 4%nat => x 0%nat + x 5%nat + x 6%nat
  | 5%nat => x 1%nat + x 4%nat + x 7%nat
  | 6%nat => x 2%nat + x 4%nat + x 7%nat
  | _ => x 3%nat + x 5%nat + x 6%nat
  end.

Definition residual (x : nat -> Q) (v : nat) : Q :=
  x v - (1 # 3) * nbr_sum x v.

Definition pass (b : Q) (x : nat -> Q) (v : nat) : Q :=
  x v - b * residual x v.

Definition sum8 (f : nat -> Q) : Q :=
  f 0%nat + f 1%nat + f 2%nat + f 3%nat + f 4%nat + f 5%nat + f 6%nat
  + f 7%nat.

Definition sq (f : nat -> Q) (v : nat) : Q := f v * f v.

(** How far apart the values at the three vertices connected to [v] are. *)
Definition spread (r : nat -> Q) (v : nat) : Q :=
  let d (a b : nat) := (r a - r b) * (r a - r b) in
  match v with
  | 0%nat => d 1%nat 2%nat + d 2%nat 4%nat + d 1%nat 4%nat
  | 1%nat => d 0%nat 3%nat + d 3%nat 5%nat + d 0%nat 5%nat
  | 2%nat => d 0%nat 3%nat + d 3%nat 6%nat + d 0%nat 6%nat
  | 3%nat => d 1%nat 2%nat + d 2%nat 7%nat + d 1%nat 7%nat
  | 4%nat => d 0%nat 5%nat + d 5%nat 6%nat + d 0%nat 6%nat
  | 5%nat => d 1%nat 4%nat + d 4%nat 7%nat + d 1%nat 7%nat
  | 6%nat => d 2%nat 4%nat + d 4%nat 7%nat + d 2%nat 7%nat
  | _ => d 3%nat 5%nat + d 5%nat 6%nat + d 3%nat 6%nat
  end.

(** A coordinate of the points of a buffer. *)
Definition coordinate (proj : QPoint -> Q) (P : QPointArray) (v : nat) : Q :=
  match P !! v with
  | Some p => proj p
  | None => 0
  end.

(** The sum of the squared residuals of one coordinate, and of all three:
    the variance [deviation] computes, see [cube_deviation] below. *)
Definition roughness (x : nat -> Q) : Q := sum8 (sq (residual x)).

Definition variance (P : QPointArray) : Q :=
  roughness (coordinate qx P) + roughness (coordinate qy P)
  + roughness (coordinate qz P).

(** Every point of [P] is in the box with corners [lo] and [hi]. *)
Definition between (lo hi t : Q) : Prop := lo <= t /\ t <= hi.

Definition in_box (lo hi : QPoint) (P : QPointArray) : Prop :=
  Forall (fun p => between (qx lo) (qx hi) (qx p) /\
                   between (qy lo) (qy hi) (qy p) /\
                   between (qz lo) (qz hi) (qz p)) P.

End Exact.

(** * Proofs *)

(** ** Loops and results *)

Section loops.
Context {A S : Type}.
Implicit Types (xs : list A) (body : A -> S -> result S) (s : S).

Lemma bind_Ok {B C} (r : result B) (k : B -> result C) (c : C) :
  (r ≫= k) = Ok c <-> exists b, r = Ok b /\ k b = Ok c.
Proof.
  destruct r as [b|e]; simpl; split.
  - intros H. by exists b.
  - by intros (b' & [= <-] & H).
  - discriminate.
  - by intros (b' & ? & _).
Qed.

Lemma for_each_app xs ys body s :
  for_each (xs ++ ys) body s = for_each xs body s ≫= for_each ys body.
Proof.
  revert s. induction xs as [|x xs IH]; intros s; simpl; [done|].
  destruct (body x s) as [s'|e]; simpl; [apply IH | done].
Qed.

(** A loop whose body does not look at the element runs [length xs] times. *)
Lemma for_each_const {B} xs (ys : list B) (f : S -> result S) s :
  length xs = length ys ->
  for_each xs (fun _ => f) s = for_each ys (fun _ => f) s.
Proof.
  revert ys s. induction xs as [|x xs IH]; intros [|y ys] s Hlen;
    simplify_eq/=; [done|].
  destruct (f s) as [s'|e]; simpl; [by apply IH | done].
Qed.

(** A property every round keeps is kept by the loop. *)
Lemma for_each_invariant (I : S -> Prop) xs body s s' :
  (forall x t t', x ∈ xs -> I t -> body x t = Ok t' -> I t') ->
  I s -> for_each xs body s = Ok s' -> I s'.
Proof.
  revert s. induction xs as [|x xs IH]; intros s Hbody Hs Hrun; simpl in Hrun.
  - by simplify_eq.
  - apply bind_Ok in Hrun as (t & Hx & Hrest).
    eapply (IH t); [|by eapply Hbody; [left|..]|done].
    intros y u u' Hy. apply Hbody. by right.
Qed.

Lemma for_each_ext xs body body' s :
  (forall x t, body x t = body' x t) ->
  for_each xs body s = for_each xs body' s.
Proof.
  intros Hext. revert s.
  induction xs as [|x xs IH]; intros s; simpl; [done|].
  rewrite Hext. destruct (body' x s) as [t|e]; simpl; [apply IH | done].
Qed.

(** A loop whose rounds all succeed, keeping [I], succeeds. *)
Lemma for_each_total (I : S -> Prop) xs body s :
  (forall x t, I t -> exists t', body x t = Ok t' /\ I t') ->
  I s -> exists s', for_each xs body s = Ok s' /\ I s'.
Proof.
  intros Hbody. revert s.
  induction xs as [|x xs IH]; intros s Hs; simpl; [by exists s|].
  destruct (Hbody x s Hs) as (t & -> & Ht). simpl. by apply IH.
Qed.

Lemma for_each_fmap {B} (f : B -> A) (ys : list B) body s :
  for_each (f <$> ys) body s = for_each ys (fun y => body (f y)) s.
Proof.
  revert s. induction ys as [|y ys IH]; intros s; simpl; [done|].
  destruct (body (f y) s) as [s'|e]; simpl; [apply IH | done].
Qed.

Lemma for_each_snoc xs x body s :
  for_each (xs ++ [x]) body s = for_each xs body s ≫= body x.
Proof.
  rewrite for_each_app. destruct (for_each xs body s) as [t|e]; simpl; [|done].
  by destruct (body x t).
Qed.

End loops.

Lemma range_nonpos (n : Z) : (n <= 0)%Z -> range n = [].
Proof.
  intros Hn. unfold range. by replace (Z.to_nat n) with 0%nat by lia.
Qed.

Lemma range_length (n : Z) : length (range n) = Z.to_nat n.
Proof. unfold range. by rewrite length_fmap, length_seq. Qed.

Lemma range_succ (n : nat) :
  range (Z.of_nat (S n)) = range (Z.of_nat n) ++ [Z.of_nat n].
Proof.
  unfold range. rewrite !Nat2Z.id, seq_S, fmap_app. done.
Qed.

(** [range(n)] lists [s - 1] for the 1-based counter [s = 1, ..., n]. *)
Lemma range_one_based (n : Z) :
  range n = (fun s : nat => (Z.of_nat s - 1)%Z) <$> seq 1 (Z.to_nat n).
Proof.
  unfold range. generalize (Z.to_nat n) as k. intros k.
  rewrite <-(fmap_S_seq 0), <-list_fmap_compose.
  apply list_fmap_ext. intros _ i _. simpl. lia.
Qed.

(** ** The neighbour average *)

Section average.
Implicit Types (P : MPointArray) (nbrs : list nat) (nps : list MPoint).

Lemma MPointArray_get_Ok P i p : MPointArray_get P i = Ok p <-> P !! i = Some p.
Proof.
  unfold MPointArray_get. destruct (P !! i) as [q|].
  - split; by intros [= ->].
  - split; discriminate.
Qed.

Lemma MPointArray_set_Ok P p i Q :
  MPointArray_set P p i = Ok Q <-> i < length P /\ Q = <[i := p]> P.
Proof.
  unfold MPointArray_set. case_decide as Hi.
  - split; [by intros [= <-] | by intros [_ ->]].
  - split; [discriminate | by intros [? _]].
Qed.

(** The summing loop of lines 98-100 succeeds exactly when every connected
    vertex has a position, and then adds these positions up in order. *)
Lemma total_pos_loop P nbrs total0 total :
  for_each nbrs
    (fun j total_pos =>
       p ← MPointArray_get P j; Ok (MPoint_add total_pos (MVector_of p)))
    total0 = Ok total
  <-> exists nps,
        Forall2 (fun j p => P !! j = Some p) nbrs nps /\
        total = foldl (fun t p => MPoint_add t (MVector_of p)) total0 nps.
Proof.
  revert total0. induction nbrs as [|j nbrs IH]; intros total0; simpl.
  - split.
    + intros [= <-]. exists []. split; [constructor | done].
    + intros (nps & Hall & ->). by inversion Hall.
  - split.
    + intros Hrun. apply bind_Ok in Hrun as (t1 & Hj & Hrest).
      apply bind_Ok in Hj as (p & Hp & [= <-]).
      apply MPointArray_get_Ok in Hp.
      apply IH in Hrest as (nps & Hall & ->).
      exists (p :: nps). split; [by constructor | done].
    + intros (nps & Hall & ->).
      inversion Hall as [|j' p nbrs' nps' Hp Hall']; subst.
      apply bind_Ok. eexists. split.
      * apply bind_Ok. exists p. split; [by apply MPointArray_get_Ok | done].
      * apply IH. by exists nps'.
Qed.

Lemma average_position_Ok (it : MItMeshVertex) P v avg :
  get_component_average_position it P v = Ok avg
  <-> exists nbrs nps,
        mesh it !! v = Some nbrs /\
        Spec.positions_of P nbrs = Some nps /\
        avg = Spec.mean nps.
Proof.
  unfold get_component_average_position, setIndex, Spec.positions_of.
  destruct (decide (v < length (mesh it))) as [Hv|Hv]; simpl.
  - destruct (lookup_lt_is_Some_2 _ _ Hv) as [nbrs Hnbrs].
    unfold getConnectedVertices; simpl. rewrite Hnbrs; simpl.
    split.
    + intros Hrun. apply bind_Ok in Hrun as (total & Hloop & [= <-]).
      apply total_pos_loop in Hloop as (nps & Hall & ->).
      exists nbrs, nps. split; [done|]. split; [by apply mapM_Some|].
      unfold Spec.mean, Spec.sum. by rewrite (Forall2_length _ _ _ Hall).
    + intros (nbrs' & nps & [= <-] & Hnps & ->).
      apply mapM_Some in Hnps.
      apply bind_Ok. eexists. split.
      * apply total_pos_loop. by exists nps.
      * unfold Spec.mean, Spec.sum. by rewrite (Forall2_length _ _ _ Hnps).
  - split; [discriminate|].
    intros (nbrs & nps & Hnbrs & _). apply lookup_lt_Some in Hnbrs. lia.
Qed.

End average.

(** ** One component, one sub-pass *)

Section sub_pass.
Context (it : MItMeshVertex) (cwd : dict float) (env str : float)
        (steps_value step : Z).
Implicit Types (P Q : MPointArray) (keys : list nat).

Lemma relax_component_new_position P index (new_positions : MPointArray) :
  relax_component it P cwd env str steps_value step index new_positions
  = new_position it P cwd env str steps_value step index
      ≫= fun new_pos => MPointArray_set new_positions new_pos index.
Proof.
  unfold relax_component, new_position.
  destruct (dict_get cwd index); simpl; [|done].
  destruct (MPointArray_get P index); simpl; [|done].
  by destruct (get_component_average_position it P index).
Qed.

(** The written point is the specification's update of the snapshot. *)
Lemma new_position_Ok P index new_pos :
  new_position it P cwd env str steps_value step index = Ok new_pos
  <-> exists w pos avg,
        cwd !! index = Some w /\
        P !! index = Some pos /\
        get_component_average_position it P index = Ok avg /\
        new_pos = Spec.update pos avg w env str (steps_value - step).
Proof.
  unfold new_position, dict_get, MPointArray_get.
  destruct (cwd !! index) as [w|]; simpl;
    [|split; [discriminate | by intros (? & ? & ? & [=] & _)]].
  destruct (P !! index) as [pos|]; simpl;
    [|split; [discriminate | by intros (? & ? & ? & _ & [=] & _)]].
  destruct (get_component_average_position it P index) as [avg|e]; simpl;
    [|split; [discriminate | by intros (? & ? & ? & _ & _ & [=] & _)]].
  unfold Spec.update, Spec.offset. split.
  - intros [= <-]. by exists w, pos, avg.
  - by intros (? & ? & ? & [= <-] & [= <-] & [= <-] & ->).
Qed.

Lemma new_position_in_range P index new_pos :
  new_position it P cwd env str steps_value step index = Ok new_pos ->
  index < length P.
Proof.
  intros (w & pos & avg & _ & Hpos & _)%new_position_Ok.
  by eapply lookup_lt_Some.
Qed.

(** What the loop over [keys] leaves in [new_positions]: at a visited index
    the point computed from the snapshot [P], elsewhere what was there. *)
Lemma component_loop_lookup P keys (new_positions : MPointArray) Q :
  for_each keys (relax_component it P cwd env str steps_value step)
    new_positions = Ok Q ->
  length Q = length new_positions /\
  (forall v, v ∈ keys ->
     exists new_pos,
       new_position it P cwd env str steps_value step v = Ok new_pos /\
       Q !! v = Some new_pos) /\
  (forall v, v ∉ keys -> Q !! v = new_positions !! v).
Proof.
  revert new_positions.
  induction keys as [|k keys IH]; intros nb Hrun; simpl in Hrun.
  - simplify_eq. split; [done|]. split; [|done].
    intros v Hv. by apply elem_of_nil in Hv.
  - apply bind_Ok in Hrun as (nb1 & Hk & Hrest).
    rewrite relax_component_new_position in Hk.
    apply bind_Ok in Hk as (pk & Hpk & Hset).
    apply MPointArray_set_Ok in Hset as [Hlt ->].
    apply IH in Hrest as (Hlen & Hin & Hout).
    rewrite length_insert in Hlen.
    split; [done|]. split.
    + intros v Hv. destruct (decide (v ∈ keys)) as [Hkeys|Hkeys].
      * by apply Hin.
      * apply elem_of_cons in Hv as [->|?]; [|done].
        exists pk. split; [done|].
        rewrite (Hout _ Hkeys). by apply list_lookup_insert_eq.
    + intros v Hv. apply not_elem_of_cons in Hv as [Hne Hkeys].
      rewrite (Hout _ Hkeys). by apply list_lookup_insert_ne.
Qed.

(** The loop succeeds when the point of every visited index can be
    computed. *)
Lemma component_loop_Ok P keys (new_positions : MPointArray) :
  length new_positions = length P ->
  (forall v, v ∈ keys ->
     exists new_pos,
       new_position it P cwd env str steps_value step v = Ok new_pos) ->
  exists Q,
    for_each keys (relax_component it P cwd env str steps_value step)
      new_positions = Ok Q.
Proof.
  revert new_positions.
  induction keys as [|k keys IH]; intros nb Hlen Hall; simpl.
  - by exists nb.
  - destruct (Hall k) as [pk Hpk]; [by left|].
    rewrite relax_component_new_position, Hpk. simpl.
    pose proof (new_position_in_range _ _ _ Hpk) as Hk.
    unfold MPointArray_set. rewrite decide_True by lia. simpl.
    apply IH; [by rewrite length_insert|].
    intros v Hv. apply Hall. by right.
Qed.

Lemma sub_pass_in_order_lookup keys P Q :
  sub_pass_in_order keys it cwd env str steps_value step P = Ok Q ->
  length Q = length P /\
  (forall v, v ∈ keys ->
     exists new_pos,
       new_position it P cwd env str steps_value step v = Ok new_pos /\
       Q !! v = Some new_pos) /\
  (forall v, v ∉ keys -> Q !! v = P !! v).
Proof. apply component_loop_lookup. Qed.

(** Two visiting orders of the same keys produce the same buffer, or both
    raise. *)
Lemma sub_pass_in_order_perm keys keys' P :
  keys ≡ₚ keys' ->
  returned (sub_pass_in_order keys it cwd env str steps_value step P)
  = returned (sub_pass_in_order keys' it cwd env str steps_value step P).
Proof.
  assert (forall ks ks' Q,
    ks ≡ₚ ks' ->
    sub_pass_in_order ks it cwd env str steps_value step P = Ok Q ->
    sub_pass_in_order ks' it cwd env str steps_value step P = Ok Q) as Hone.
  { intros ks ks' Q Hperm Hks.
    pose proof (sub_pass_in_order_lookup _ _ _ Hks) as (Hlen & Hin & Hout).
    destruct (component_loop_Ok P ks' P) as [Q' Hks']; [done| |].
    { intros v Hv. rewrite <-Hperm in Hv.
      destruct (Hin _ Hv) as (p & Hp & _). by exists p. }
    change (sub_pass_in_order ks' it cwd env str steps_value step P = Ok Q')
      in Hks'.
    rewrite Hks'. f_equal.
    pose proof (sub_pass_in_order_lookup _ _ _ Hks') as (Hlen' & Hin' & Hout').
    apply list_eq. intros v.
    destruct (decide (v ∈ ks)) as [Hv|Hv].
    - destruct (Hin _ Hv) as (p & Hp & ->).
      rewrite Hperm in Hv.
      destruct (Hin' _ Hv) as (p' & Hp' & ->). congruence.
    - rewrite (Hout _ Hv). rewrite Hperm in Hv. by rewrite (Hout' _ Hv). }
  intros Hperm.
  destruct (sub_pass_in_order keys it cwd env str steps_value step P)
    as [Q|e] eqn:Hkeys.
  - by rewrite (Hone _ _ _ Hperm Hkeys).
  - destruct (sub_pass_in_order keys' it cwd env str steps_value step P)
      as [Q'|e'] eqn:Hkeys'; [|done].
    symmetry in Hperm. rewrite (Hone _ _ _ Hperm Hkeys') in Hkeys.
    discriminate.
Qed.

End sub_pass.

(** ** Dictionaries *)

Section dict.
Context {V : Type}.
Implicit Types (d : dict V) (l : list (nat * V)) (k j : nat) (v : V).

Lemma dict_lookup_empty k : (∅ : dict V) !! k = None.
Proof. reflexivity. Qed.

Lemma items_get_set_eq l k v : items_get k (items_set k v l) = Some v.
Proof.
  induction l as [|[k' v'] l IH]; simpl.
  - by rewrite decide_True.
  - destruct (decide (k' = k)) as [->|Hne]; simpl.
    + by rewrite decide_True.
    + by rewrite decide_False.
Qed.

Lemma items_get_set_ne l k j v :
  k ≠ j -> items_get j (items_set k v l) = items_get j l.
Proof.
  intros Hne. induction l as [|[k' v'] l IH]; simpl.
  - by rewrite decide_False.
  - destruct (decide (k' = k)) as [->|Hne']; simpl.
    + by rewrite !decide_False.
    + by destruct (decide (k' = j)).
Qed.

Lemma dict_lookup_insert_eq d k v : <[k := v]> d !! k = Some v.
Proof. apply items_get_set_eq. Qed.

Lemma dict_lookup_insert_ne d k j v : k ≠ j -> <[k := v]> d !! j = d !! j.
Proof. apply items_get_set_ne. Qed.

(** The keys the loop walks are the keys a lookup finds. *)
Lemma elem_of_dict_keys d k : k ∈ dict_keys d <-> is_Some (d !! k).
Proof.
  destruct d as [l]. unfold dict_keys, lookup, dict_lookup. simpl.
  induction l as [|[k' v'] l IH]; simpl.
  - split; [by intros ?%elem_of_nil | by intros [? ?]].
  - rewrite elem_of_cons, IH.
    destruct (decide (k' = k)) as [->|Hne]; split.
    + by eexists.
    + by left.
    + by intros [->|?].
    + by right.
Qed.

(** A dictionary without keys is the empty one. *)
Lemma dict_empty_iff d : d = ∅ <-> forall k, d !! k = None.
Proof.
  split; [by intros ->|]. intros Hnone.
  destruct d as [[|[k v] l]]; [done|].
  specialize (Hnone k). unfold lookup, dict_lookup in Hnone. simpl in Hnone.
  by rewrite decide_True in Hnone.
Qed.

End dict.

(** ** The weight dictionary *)

Section weights.
Context (weight_of : nat -> float).
Implicit Types (remaining : list nat) (weights : dict float).

Lemma weighted_components_loop_skip remaining weights v :
  v ∉ remaining \/ truthy_float (weight_of v) = false ->
  weighted_components_loop weight_of remaining weights !! v = weights !! v.
Proof.
  revert weights.
  induction remaining as [|index rest IH]; intros weights Hv; simpl; [done|].
  rewrite IH.
  - destruct (truthy_float (weight_of index)) eqn:Hw; [|done].
    apply dict_lookup_insert_ne. intros ->.
    destruct Hv as [Hv|Hv]; [|congruence].
    apply Hv. by left.
  - destruct Hv as [Hv|Hv]; [left|by right].
    by apply not_elem_of_cons in Hv as [_ ?].
Qed.

Lemma weighted_components_loop_keep remaining weights v :
  v ∈ remaining -> truthy_float (weight_of v) = true ->
  weighted_components_loop weight_of remaining weights !! v
  = Some (weight_of v).
Proof.
  revert weights.
  induction remaining as [|index rest IH]; intros weights Hv Hw; simpl.
  - by apply elem_of_nil in Hv.
  - destruct (decide (v ∈ rest)) as [Hrest|Hrest]; [by apply IH|].
    apply elem_of_cons in Hv as [->|?]; [|done].
    rewrite weighted_components_loop_skip by by left.
    rewrite Hw. apply dict_lookup_insert_eq.
Qed.

(** Every entry of the dictionary is a visited component with its own,
    nonzero, weight. *)
Lemma weighted_components_loop_entry remaining v w :
  weighted_components_loop weight_of remaining ∅ !! v = Some w ->
  v ∈ remaining /\ w = weight_of v /\ truthy_float w = true.
Proof.
  intros Hv.
  destruct (decide (v ∈ remaining)) as [Hin|Hout].
  - destruct (truthy_float (weight_of v)) eqn:Hw.
    + rewrite weighted_components_loop_keep in Hv by done.
      simplify_eq. done.
    + rewrite weighted_components_loop_skip in Hv by by right.
      by rewrite dict_lookup_empty in Hv.
  - rewrite weighted_components_loop_skip in Hv by by left.
    by rewrite dict_lookup_empty in Hv.
Qed.

Lemma weighted_components_loop_empty remaining :
  Forall (fun index => truthy_float (weight_of index) = false) remaining ->
  weighted_components_loop weight_of remaining ∅ = ∅.
Proof.
  intros Hall. apply dict_empty_iff. intros v.
  destruct (decide (v ∈ remaining)) as [Hin|Hout].
  - rewrite weighted_components_loop_skip; [apply dict_lookup_empty|right].
    by eapply Forall_forall in Hall.
  - rewrite weighted_components_loop_skip; [apply dict_lookup_empty|by left].
Qed.

End weights.


(** ** Vertices without a weight *)

Section frame.
Context (it : MItMeshVertex) (cwd : dict float) (env str : float).
Implicit Types (P Q : MPointArray).

Lemma sub_pass_frame steps_value step P Q v :
  cwd !! v = None ->
  sub_pass it cwd env str steps_value step P = Ok Q ->
  Q !! v = P !! v.
Proof.
  intros Hv Hrun.
  apply sub_pass_in_order_lookup in Hrun as (_ & _ & Hout).
  apply Hout. rewrite elem_of_dict_keys, Hv. by intros [? ?].
Qed.

Lemma sub_pass_length steps_value step P Q :
  sub_pass it cwd env str steps_value step P = Ok Q -> length Q = length P.
Proof. intros Hrun. by apply sub_pass_in_order_lookup in Hrun as (? & _). Qed.

Lemma iteration_after_sub_passes steps_value start P Q :
  Spec.after_sub_passes it cwd env str start P ->
  iteration it cwd env str steps_value P = Ok Q ->
  Spec.after_sub_passes it cwd env str start Q.
Proof.
  intros HP Hrun. revert Hrun.
  apply (for_each_invariant (Spec.after_sub_passes it cwd env str start));
    [|done].
  intros step R R' _ HR Hpass. by eapply Spec.asp_pass.
Qed.

Lemma relax_after_sub_passes iter_value steps_value P Q :
  relax it cwd env str iter_value steps_value P = Ok Q ->
  Spec.after_sub_passes it cwd env str P Q.
Proof.
  apply (for_each_invariant (Spec.after_sub_passes it cwd env str P)).
  - intros i R R' _ HR Hiter. by eapply iteration_after_sub_passes.
  - constructor.
Qed.

Lemma after_sub_passes_frame start Q v :
  cwd !! v = None ->
  Spec.after_sub_passes it cwd env str start Q ->
  Q !! v = start !! v.
Proof.
  intros Hv Hreach.
  induction Hreach as [|steps_value step R R' _ IH Hpass]; [done|].
  rewrite <-IH. by eapply sub_pass_frame.
Qed.

End frame.

(** ** The guards of [deform] *)

Section guards.
Context (data : MDataBlock) (geom_iter : MItGeometry) (geom_index : nat).

(** Past the five guards, [deform] is the relaxation followed by the single
    write of [setAllPositions]. *)
Lemma deform_proceeds :
  truthy_float (envelope data) = true ->
  truthy_int (iterations data) = true ->
  truthy_int (steps data) = true ->
  truthy_float (strength data) = true ->
  (get_weighted_componenents geom_iter geom_index data).1 ≠ ∅ ->
  deform data geom_iter geom_index
  = let '(comp_weight_data, geom_iter') :=
      get_weighted_componenents geom_iter geom_index data in
    match relax (MItMeshVertex_new (get_input_mesh data geom_index))
            comp_weight_data (envelope data) (strength data)
            (iterations data) (steps data) (allPositions geom_iter') with
    | Raise e => (Raise e, geom_iter')
    | Ok all_positions => (Ok true, setAllPositions geom_iter' all_positions)
    end.
Proof.
  intros Henv Hiter Hsteps Hstr Hw. unfold deform.
  rewrite Henv, Hiter, Hsteps, Hstr. simpl.
  simpl in Hw. by rewrite bool_decide_eq_false_2.
Qed.

(** Whatever [deform] does, it returns [False] with the geometry as it
    was, or it went through the relaxation. *)
Lemma deform_cases :
  ((deform data geom_iter geom_index).1 = Ok false /\
   geometry (deform data geom_iter geom_index).2 = geometry geom_iter)
  \/ (let cwd := (get_weighted_componenents geom_iter geom_index data).1 in
      let run :=
        relax (MItMeshVertex_new (get_input_mesh data geom_index)) cwd
          (envelope data) (strength data) (iterations data) (steps data)
          (geometry geom_iter) in
      match run with
      | Raise e =>
          (deform data geom_iter geom_index).1 = Raise e /\
          geometry (deform data geom_iter geom_index).2 = geometry geom_iter
      | Ok Q =>
          (deform data geom_iter geom_index).1 = Ok true /\
          geometry (deform data geom_iter geom_index).2 = Q
      end).
Proof.
  unfold deform.
  destruct (truthy_float (envelope data)); simpl; [|by left].
  destruct (truthy_int (iterations data)); simpl; [|by left].
  destruct (truthy_int (steps data)); simpl; [|by left].
  destruct (truthy_float (strength data)); simpl; [|by left].
  case_bool_decide; [by left|]. right.
  unfold allPositions; simpl.
  by destruct (relax _ _ _ _ _ _ _).
Qed.

End guards.

(** * The claims *)

(** C3.  When the envelope, the strength, the iteration count or the step
    count is zero, or no component of the geometry has a nonzero weight,
    [deform] returns [False] (nothing to do, no exception) and the points of
    the geometry are the input points. *)
Theorem deform_noop_guards data geom_iter geom_index :
  PrimFloat.eqb (envelope data) 0 = true \/
  PrimFloat.eqb (strength data) 0 = true \/
  iterations data = 0%Z \/
  steps data = 0%Z \/
  Forall (fun index =>
            PrimFloat.eqb (weightValue data geom_index index) 0 = true)
         (components geom_iter) ->
  (deform data geom_iter geom_index).1 = Ok false /\
  geometry (deform data geom_iter geom_index).2 = geometry geom_iter.
Proof.
  intros Hzero. unfold deform.
  destruct (truthy_float (envelope data)) eqn:Henv; simpl; [|done].
  destruct (truthy_int (iterations data)) eqn:Hiter; simpl; [|done].
  destruct (truthy_int (steps data)) eqn:Hsteps; simpl; [|done].
  destruct (truthy_float (strength data)) eqn:Hstr; simpl; [|done].
  case_bool_decide as Hweights; [done|]. exfalso.
  unfold truthy_float, truthy_int in *.
  destruct Hzero as [H|[H|[H|[H|H]]]].
  - by rewrite H in Henv.
  - by rewrite H in Hstr.
  - by rewrite H in Hiter.
  - by rewrite H in Hsteps.
  - apply Hweights, weighted_components_loop_empty.
    eapply Forall_impl; [exact H|]. intros index Hindex; simpl in Hindex.
    unfold truthy_float. by rewrite Hindex.
Qed.

(** The ring with envelope 0: nothing is done. *)
Lemma deform_noop_guards_witness :
  PrimFloat.eqb (envelope (Ring.ring_data 0 1 4 3)) 0 = true /\
  (deform (Ring.ring_data 0 1 4 3) Ring.ring_iter 0).1 = Ok false /\
  geometry (deform (Ring.ring_data 0 1 4 3) Ring.ring_iter 0).2
  = Ring.ring_points.
Proof.
  split; [reflexivity|].
  apply (deform_noop_guards (Ring.ring_data 0 1 4 3) Ring.ring_iter 0).
  left. reflexivity.
Defined.

(** C8.  When [deform] raises, the points of the geometry are the input
    points: the exception comes out of the relaxation loops, which work on
    the node's own copy, and [setAllPositions] has not been reached. *)
Theorem deform_abort_keeps_geometry data geom_iter geom_index e :
  (deform data geom_iter geom_index).1 = Raise e ->
  geometry (deform data geom_iter geom_index).2 = geometry geom_iter /\
  relax (MItMeshVertex_new (get_input_mesh data geom_index))
    (get_weighted_componenents geom_iter geom_index data).1
    (envelope data) (strength data) (iterations data) (steps data)
    (geometry geom_iter) = Raise e.
Proof.
  intros Hraise.
  destruct (deform_cases data geom_iter geom_index) as [[Hret _]|Hrun].
  - rewrite Hret in Hraise. discriminate.
  - simpl in Hrun.
    destruct (relax _ _ _ _ _ _ _) as [Q|e'].
    + destruct Hrun as [Hret _]. rewrite Hret in Hraise. discriminate.
    + destruct Hrun as [Hret Hgeom]. rewrite Hret in Hraise.
      by simplify_eq.
Qed.

(** The ring whose vertex 3 names the missing vertex 5: [IndexError], and
    the ring is as it was. *)
Lemma deform_abort_keeps_geometry_witness :
  (deform Dangling.dangling_data Ring.ring_iter 0).1 = Raise IndexError /\
  geometry (deform Dangling.dangling_data Ring.ring_iter 0).2
  = Ring.ring_points.
Proof.
  split; [reflexivity|].
  apply (deform_abort_keeps_geometry
           Dangling.dangling_data Ring.ring_iter 0 IndexError).
  reflexivity.
Defined.

(** C5.  The ring scenario: weight 1 on vertex 0 only, envelope, strength,
    iterations and steps all 1.  Vertex 0 ends at (0.5, 0.5, 0), the average
    of vertices 1 and 3; vertices 1, 2 and 3 stay where they were. *)
Theorem ring_scenario :
  (deform (Ring.ring_data 1 1 1 1) Ring.ring_iter 0).1 = Ok true /\
  geometry (deform (Ring.ring_data 1 1 1 1) Ring.ring_iter 0).2
  = [mkPoint 0.5 0.5 0; mkPoint 1 0 0; mkPoint 1 1 0; mkPoint 0 1 0].
Proof. split; vm_compute; reflexivity. Qed.

(** C2 fails on the code.  A weighted vertex that no edge reaches is not
    skipped: line 103 divides the empty sum by the neighbour count 0, the
    average is not a number, and so is the position written for the vertex. *)
Theorem isolated_vertex_not_skipped :
  (forall it (P : MPointArray) v,
     mesh it !! v = Some [] ->
     get_component_average_position it P v = Ok (mkPoint nan nan nan)) /\
  Isolated.isolated_points !! 4%nat = Some (mkPoint 5 5 5) /\
  (deform Isolated.isolated_data Isolated.isolated_iter 0).1 = Ok true /\
  geometry (deform Isolated.isolated_data Isolated.isolated_iter 0).2
  = [mkPoint 0 0 0; mkPoint 1 0 0; mkPoint 1 1 0; mkPoint 0 1 0;
     mkPoint nan nan nan].
Proof.
  split; [|repeat split; vm_compute; reflexivity].
  intros it P v Hv. apply average_position_Ok.
  exists [], []. split; [done|]. split; vm_compute; reflexivity.
Qed.

(** C7.  In a sub-pass, a weighted vertex [v] with connected vertices
    [nbrs] is moved to [position(v) + offset / divisor], where the offset is
    [(mean - position(v)) * weight(v) * envelope * strength] and the mean is
    the sum of the positions of [nbrs] divided by their number: nothing but
    the positions of the connected vertices enters the mean. *)
Theorem sub_pass_update_formula
    it cwd env str steps_value step (P Q : MPointArray) v w nbrs :
  sub_pass it cwd env str steps_value step P = Ok Q ->
  cwd !! v = Some w ->
  mesh it !! v = Some nbrs ->
  nbrs ≠ [] ->
  exists pos nps,
    P !! v = Some pos /\
    Spec.positions_of P nbrs = Some nps /\
    Q !! v
    = Some (Spec.update pos (Spec.mean nps) w env str (steps_value - step)).
Proof.
  intros Hrun Hw Hnbrs _.
  apply sub_pass_in_order_lookup in Hrun as (_ & Hin & _).
  destruct (Hin v) as (new_pos & Hnew & HQ).
  { apply elem_of_dict_keys. by exists w. }
  apply new_position_Ok in Hnew as (w' & pos & avg & Hw' & Hpos & Havg & ->).
  apply average_position_Ok in Havg as (nbrs' & nps & Hnbrs' & Hnps & ->).
  simplify_eq. by exists pos, nps.
Qed.

(** The second of three sub-passes on the ring, strength 0.5: vertex 0 goes
    an eighth of the way. *)
Lemma sub_pass_update_formula_witness :
  exists pos nps,
    Ring.ring_points !! 0%nat = Some pos /\
    Spec.positions_of Ring.ring_points [1; 3]%nat = Some nps /\
    [mkPoint 0.125 0.125 0; mkPoint 1 0 0; mkPoint 1 1 0; mkPoint 0 1 0]
      !! 0%nat
    = Some (Spec.update pos (Spec.mean nps) 1 1 0.5 (3 - 1)).
Proof.
  apply (sub_pass_update_formula
           (MItMeshVertex_new Ring.ring_mesh) {[0%nat := 1%float]}
           1 0.5 3 1 Ring.ring_points
           [mkPoint 0.125 0.125 0; mkPoint 1 0 0; mkPoint 1 1 0; mkPoint 0 1 0]
           0%nat 1%float [1; 3]%nat).
  - vm_compute. reflexivity.
  - vm_compute. reflexivity.
  - reflexivity.
  - discriminate.
Defined.

(** C4.  In a sub-pass every visited vertex gets the point computed from
    the buffer as it was when the sub-pass began: its own position and the
    average of its connected vertices are both read in that snapshot.  Hence
    visiting the weighted vertices in another order produces the same buffer
    (or fails as well).  [sub_pass] is [sub_pass_in_order] on the order in
    which the dictionary hands out its keys. *)
Theorem sub_pass_order_independent
    it cwd env str steps_value step (keys keys' : list nat) (P : MPointArray) :
  keys ≡ₚ keys' ->
  returned (sub_pass_in_order keys it cwd env str steps_value step P)
  = returned (sub_pass_in_order keys' it cwd env str steps_value step P) /\
  (forall Q v,
     sub_pass_in_order keys it cwd env str steps_value step P = Ok Q ->
     v ∈ keys ->
     exists w pos avg,
       cwd !! v = Some w /\
       P !! v = Some pos /\
       get_component_average_position it P v = Ok avg /\
       Q !! v = Some (Spec.update pos avg w env str (steps_value - step))).
Proof.
  intros Hperm. split; [by apply sub_pass_in_order_perm|].
  intros Q v Hrun Hv.
  apply sub_pass_in_order_lookup in Hrun as (_ & Hin & _).
  destruct (Hin v Hv) as (new_pos & Hnew & HQ).
  apply new_position_Ok in Hnew as (w & pos & avg & Hw & Hpos & Havg & ->).
  by exists w, pos, avg.
Qed.

(** Three weighted vertices of the ring, visited in two orders. *)
Lemma sub_pass_order_independent_witness :
  [0; 1; 2]%nat ≡ₚ [2; 0; 1]%nat /\
  returned
    (sub_pass_in_order [0; 1; 2]%nat (MItMeshVertex_new Ring.ring_mesh)
       {[0%nat := 1%float; 1%nat := 0.5%float; 2%nat := 1%float]}
       1 1 2 0 Ring.ring_points)
  = returned
      (sub_pass_in_order [2; 0; 1]%nat (MItMeshVertex_new Ring.ring_mesh)
         {[0%nat := 1%float; 1%nat := 0.5%float; 2%nat := 1%float]}
         1 1 2 0 Ring.ring_points).
Proof.
  assert ([0; 1; 2]%nat ≡ₚ [2; 0; 1]%nat) as Hperm.
  { symmetry. apply (Permutation_cons_append [0; 1]%nat 2%nat). }
  split; [exact Hperm|].
  exact (proj1 (sub_pass_order_independent
                  (MItMeshVertex_new Ring.ring_mesh)
                  {[0%nat := 1%float; 1%nat := 0.5%float; 2%nat := 1%float]}
                  1 1 2 0 [0; 1; 2]%nat [2; 0; 1]%nat Ring.ring_points
                  Hperm)).
Defined.

(** C6.  A vertex that is not in the weight dictionary, or whose weight is
    zero, is where it was when [deform] is over, whatever the settings and
    whatever happens to the vertices connected to it.  It is also where it
    was after any number of sub-passes, and there the average computed for a
    vertex [u] connected to it still sums over all the vertices connected to
    [u], the term of the unweighted one being its input position. *)
Theorem unweighted_vertex_never_moves data geom_iter geom_index v :
  (get_weighted_componenents geom_iter geom_index data).1 !! v = None \/
  PrimFloat.eqb (weightValue data geom_index v) 0 = true ->
  geometry (deform data geom_iter geom_index).2 !! v
  = geometry geom_iter !! v /\
  (forall Q,
     Spec.after_sub_passes
       (MItMeshVertex_new (get_input_mesh data geom_index))
       (get_weighted_componenents geom_iter geom_index data).1
       (envelope data) (strength data) (geometry geom_iter) Q ->
     Q !! v = geometry geom_iter !! v /\
     (forall u nbrs avg,
        get_input_mesh data geom_index !! u = Some nbrs ->
        get_component_average_position
          (MItMeshVertex_new (get_input_mesh data geom_index)) Q u = Ok avg ->
        exists nps,
          Spec.positions_of Q nbrs = Some nps /\
          avg = Spec.mean nps /\
          (forall i, nbrs !! i = Some v ->
                     nps !! i = geometry geom_iter !! v))).
Proof.
  intros Hv.
  assert ((get_weighted_componenents geom_iter geom_index data).1 !! v = None)
    as Hnone.
  { destruct Hv as [Hv|Hv]; [done|]. simpl.
    apply eq_None_not_Some. intros [w Hw].
    apply weighted_components_loop_entry in Hw as (_ & -> & Hw).
    unfold truthy_float in Hw. by rewrite Hv in Hw. }
  assert (forall Q,
     Spec.after_sub_passes
       (MItMeshVertex_new (get_input_mesh data geom_index))
       (get_weighted_componenents geom_iter geom_index data).1
       (envelope data) (strength data) (geometry geom_iter) Q ->
     Q !! v = geometry geom_iter !! v) as Hframe.
  { intros Q HQ. by eapply after_sub_passes_frame. }
  split; [|intros Q HQ; split; [by apply Hframe|]].
  - destruct (deform_cases data geom_iter geom_index) as [[_ Hgeom]|Hrun].
    + by rewrite Hgeom.
    + simpl in Hrun.
      destruct (relax _ _ _ _ _ _ _) as [Q|e] eqn:Hrelax.
      * destruct Hrun as [_ ->].
        apply relax_after_sub_passes in Hrelax. by apply Hframe.
      * destruct Hrun as [_ Hgeom]. by rewrite Hgeom.
  - intros u nbrs avg Hnbrs Havg.
    apply average_position_Ok in Havg as (nbrs' & nps & Hnbrs' & Hnps & ->).
    simpl in Hnbrs'. simplify_eq.
    exists nps. split; [done|]. split; [done|].
    intros i Hi. unfold Spec.positions_of in Hnps.
    apply mapM_Some in Hnps.
    destruct (Forall2_lookup_l _ _ _ _ _ Hnps Hi) as (p & -> & Hp).
    rewrite <-Hp. by apply Hframe.
Qed.

(** Vertex 1 of the ring, weight 0, next to the moving vertex 0. *)
Lemma unweighted_vertex_never_moves_witness :
  PrimFloat.eqb (weightValue (Ring.ring_data 1 0.5 2 3) 0 1) 0 = true /\
  geometry (deform (Ring.ring_data 1 0.5 2 3) Ring.ring_iter 0).2 !! 1%nat
  = Some (mkPoint 1 0 0).
Proof.
  split; [reflexivity|].
  exact (proj1 (unweighted_vertex_never_moves
                  (Ring.ring_data 1 0.5 2 3) Ring.ring_iter 0 1%nat
                  (or_intror eq_refl))).
Defined.

(** ** The schedule of divisors *)

Lemma divisors_descend (n : nat) :
  (fun step => (Z.of_nat n - step)%Z) <$> range (Z.of_nat n)
  = Z.of_nat <$> reverse (seq 1 n).
Proof.
  apply list_eq. intros i. unfold range.
  rewrite Nat2Z.id, !list_lookup_fmap.
  destruct (decide (i < n)) as [Hi|Hi].
  - rewrite reverse_lookup by (rewrite length_seq; lia).
    rewrite length_seq, !lookup_seq_lt by lia. simpl. f_equal. lia.
  - rewrite lookup_seq_ge by lia.
    rewrite (lookup_ge_None_2 (reverse _))
      by (rewrite length_reverse, length_seq; lia).
    done.
Qed.

Lemma relax_succ it cwd env str (n : nat) steps_value (P : MPointArray) :
  relax it cwd env str (Z.of_nat (S n)) steps_value P
  = relax it cwd env str (Z.of_nat n) steps_value P
      ≫= iteration it cwd env str steps_value.
Proof. unfold relax. by rewrite range_succ, for_each_snoc. Qed.

(** C1.  With [steps >= 1], an outer iteration runs the sub-passes
    [s = 1, ..., steps] in this order, and sub-pass [s] moves every weighted
    vertex by its offset divided by [steps - s + 1]: the divisors are
    [steps, steps - 1, ..., 1], the first sub-pass divides by [steps] and the
    last by 1.  Dividing by [steps] in every sub-pass is another
    computation: on the ring with [steps = 3] the two end in different
    places. *)
Theorem descending_divisor_schedule it cwd env str steps_value :
  (1 <= steps_value)%Z ->
  (forall P : MPointArray,
     iteration it cwd env str steps_value P
     = for_each (seq 1 (Z.to_nat steps_value))
         (fun s => sub_pass it cwd env str steps_value (Z.of_nat s - 1))
         P) /\
  (forall iter_value (P : MPointArray),
     relax it cwd env str iter_value steps_value P
     = for_each (range iter_value)
         (fun _ =>
            for_each (seq 1 (Z.to_nat steps_value))
              (fun s => sub_pass it cwd env str steps_value (Z.of_nat s - 1)))
         P) /\
  (forall (s : nat) (P Q : MPointArray) v w,
     1 <= s <= Z.to_nat steps_value ->
     sub_pass it cwd env str steps_value (Z.of_nat s - 1) P = Ok Q ->
     cwd !! v = Some w ->
     exists pos avg,
       P !! v = Some pos /\
       get_component_average_position it P v = Ok avg /\
       Q !! v
       = Some (MPoint_add pos
                 (MVector_div (Spec.offset avg pos w env str)
                    (float_of_Z (steps_value - Z.of_nat s + 1))))) /\
  (fun step => (steps_value - step)%Z) <$> range steps_value
  = Z.of_nat <$> reverse (seq 1 (Z.to_nat steps_value)) /\
  (steps_value - Z.of_nat 1 + 1 = steps_value)%Z /\
  (steps_value - Z.of_nat (Z.to_nat steps_value) + 1 = 1)%Z /\
  iteration (MItMeshVertex_new Ring.ring_mesh) {[0%nat := 1%float]}
    1 1 3 Ring.ring_points
  ≠ Spec.uniform_iteration (MItMeshVertex_new Ring.ring_mesh)
      {[0%nat := 1%float]} 1 1 3 Ring.ring_points.
Proof.
  intros Hsteps.
  assert (forall P : MPointArray,
     iteration it cwd env str steps_value P
     = for_each (seq 1 (Z.to_nat steps_value))
         (fun s => sub_pass it cwd env str steps_value (Z.of_nat s - 1))
         P) as Hiteration.
  { intros P. unfold iteration. by rewrite range_one_based, for_each_fmap. }
  repeat split.
  - exact Hiteration.
  - intros iter_value P. unfold relax. apply for_each_ext.
    intros _ R. apply Hiteration.
  - intros s P Q v w _ Hrun Hw.
    apply sub_pass_in_order_lookup in Hrun as (_ & Hin & _).
    destruct (Hin v) as (new_pos & Hnew & HQ).
    { apply elem_of_dict_keys. by exists w. }
    apply new_position_Ok in Hnew as (w' & pos & avg & ? & ? & ? & ->).
    simplify_eq. exists pos, avg. split; [done|]. split; [done|].
    rewrite HQ. unfold Spec.update. do 4 f_equal. lia.
  - pose proof (Z2Nat.id steps_value ltac:(lia)) as Hn. revert Hn.
    generalize (Z.to_nat steps_value) as n. intros n <-.
    apply divisors_descend.
  - lia.
  - lia.
  - intros Heq.
    apply (f_equal (fun r =>
             match r with
             | Ok (p :: _) => PrimFloat.eqb (px p) 0.5
             | _ => false
             end)) in Heq.
    vm_compute in Heq. discriminate.
Qed.

(** Three sub-passes on the ring. *)
Lemma descending_divisor_schedule_witness :
  (1 <= 3)%Z /\
  iteration (MItMeshVertex_new Ring.ring_mesh) {[0%nat := 1%float]}
    1 1 3 Ring.ring_points
  = for_each [1; 2; 3]%nat
      (fun s =>
         sub_pass (MItMeshVertex_new Ring.ring_mesh) {[0%nat := 1%float]}
           1 1 3 (Z.of_nat s - 1))
      Ring.ring_points.
Proof.
  assert (1 <= 3)%Z as Hsteps by lia.
  split; [exact Hsteps|].
  exact (proj1 (descending_divisor_schedule
                  (MItMeshVertex_new Ring.ring_mesh) {[0%nat := 1%float]}
                  1 1 3 Hsteps) Ring.ring_points).
Defined.

(** C10.  The guards test for zero and nothing else.  With a nonzero
    envelope, strength, iteration count and step count (negative ones
    included) and a weight dictionary that is not empty, [deform] runs the
    relaxation with the settings as they are: it returns [True] with the
    relaxed points written to the geometry, or raises what the relaxation
    raises; and in every sub-pass the offset of a weighted vertex is
    multiplied by the envelope and the strength as given, sign included. *)
Theorem guards_test_for_zero_only data geom_iter geom_index :
  PrimFloat.eqb (envelope data) 0 = false ->
  PrimFloat.eqb (strength data) 0 = false ->
  iterations data ≠ 0%Z ->
  steps data ≠ 0%Z ->
  (get_weighted_componenents geom_iter geom_index data).1 ≠ ∅ ->
  match relax (MItMeshVertex_new (get_input_mesh data geom_index))
          (get_weighted_componenents geom_iter geom_index data).1
          (envelope data) (strength data) (iterations data) (steps data)
          (geometry geom_iter) with
  | Ok Q =>
      (deform data geom_iter geom_index).1 = Ok true /\
      geometry (deform data geom_iter geom_index).2 = Q
  | Raise e =>
      (deform data geom_iter geom_index).1 = Raise e /\
      geometry (deform data geom_iter geom_index).2 = geometry geom_iter
  end /\
  (forall step (P Q : MPointArray) v w,
     sub_pass (MItMeshVertex_new (get_input_mesh data geom_index))
       (get_weighted_componenents geom_iter geom_index data).1
       (envelope data) (strength data) (steps data) step P = Ok Q ->
     (get_weighted_componenents geom_iter geom_index data).1 !! v = Some w ->
     exists pos avg,
       P !! v = Some pos /\
       get_component_average_position
         (MItMeshVertex_new (get_input_mesh data geom_index)) P v = Ok avg /\
       Q !! v
       = Some (MPoint_add pos
                 (MVector_div
                    (MVector_mul
                       (MVector_mul (MVector_mul (MPoint_sub avg pos) w)
                          (envelope data))
                       (strength data))
                    (float_of_Z (steps data - step))))).
Proof.
  intros Henv Hstr Hiter Hsteps Hweights. split.
  - rewrite deform_proceeds; try done.
    + simpl. unfold allPositions. simpl. by destruct (relax _ _ _ _ _ _ _).
    + unfold truthy_float. by rewrite Henv.
    + unfold truthy_int. by apply negb_true_iff, Z.eqb_neq.
    + unfold truthy_int. by apply negb_true_iff, Z.eqb_neq.
    + unfold truthy_float. by rewrite Hstr.
  - intros step P Q v w Hrun Hw.
    apply sub_pass_in_order_lookup in Hrun as (_ & Hin & _).
    destruct (Hin v) as (new_pos & Hnew & HQ).
    { apply elem_of_dict_keys. by exists w. }
    apply new_position_Ok in Hnew as (w' & pos & avg & ? & ? & ? & ->).
    simplify_eq. by exists pos, avg.
Qed.

(** Envelope -1 on the ring: vertex 0 is pushed away from the average
    (0.5, 0.5, 0) of its neighbours, to (-0.5, -0.5, 0). *)
Lemma guards_test_for_zero_only_witness :
  PrimFloat.eqb (envelope (Ring.ring_data (-1) 1 1 1)) 0 = false /\
  (deform (Ring.ring_data (-1) 1 1 1) Ring.ring_iter 0).1 = Ok true /\
  geometry (deform (Ring.ring_data (-1) 1 1 1) Ring.ring_iter 0).2
  = [mkPoint (-0.5) (-0.5) 0; mkPoint 1 0 0; mkPoint 1 1 0; mkPoint 0 1 0].
Proof.
  split; [reflexivity|].
  assert ((get_weighted_componenents Ring.ring_iter 0
             (Ring.ring_data (-1) 1 1 1)).1 ≠ ∅) as Hweights.
  { intros Heq. apply (f_equal (fun d => d !! 0%nat)) in Heq.
    vm_compute in Heq. discriminate. }
  assert (1 ≠ 0)%Z as Hone by discriminate.
  exact (proj1 (guards_test_for_zero_only
                  (Ring.ring_data (-1) 1 1 1) Ring.ring_iter 0
                  eq_refl eq_refl Hone Hone Hweights)).
Defined.

(** ** The cube with two alternating positions *)

Lemma cube_relax (n : nat) :
  relax (MItMeshVertex_new Cube.cube_mesh)
    (get_weighted_componenents Cube.cube_iter 0 (Cube.cube_data 1 1)).1
    1 1 (Z.of_nat n) 1 Cube.alternating
  = Ok (Cube.after_iterations n).
Proof.
  induction n as [|n IH]; [reflexivity|].
  rewrite relax_succ, IH. unfold Cube.after_iterations.
  rewrite Nat.even_succ, <-Nat.negb_even.
  destruct (Nat.even n); vm_compute; reflexivity.
Qed.


(** With [steps = 2] the first sub-pass of the first iteration already
    brings the alternating configuration to the origin, where it stays. *)
Lemma cube_relax_two_steps (n : nat) :
  relax (MItMeshVertex_new Cube.cube_mesh)
    (get_weighted_componenents Cube.cube_iter 0 (Cube.cube_data 1 2)).1
    1 1 (Z.of_nat (S n)) 2 Cube.alternating
  = Ok Cube.flattened.
Proof.
  induction n as [|n IH]; [vm_compute; reflexivity|].
  rewrite relax_succ, IH. vm_compute; reflexivity.
Qed.

(** With [steps = 1], from the alternating configuration and whatever the
    number of iterations, [deform] succeeds and leaves the configuration or
    its mirror image (two iterations give the input back), and the sum of
    squared distances to the neighbour averages is what it was for the input,
    32.  With [steps = 2] the same input ends at the origin for every number
    of iterations, the sum being 0. *)
Lemma cube_alternating_oscillates (n : nat) :
  (deform (Cube.cube_data (Z.of_nat (S n)) 1) Cube.cube_iter 0).1 = Ok true /\
  geometry (deform (Cube.cube_data (Z.of_nat (S n)) 1) Cube.cube_iter 0).2
  = Cube.after_iterations (S n) /\
  Cube.after_iterations (S (S n)) = Cube.after_iterations n /\
  Spec.deviation Cube.cube_mesh (Cube.after_iterations (S n))
  = Spec.deviation Cube.cube_mesh Cube.alternating /\
  Spec.deviation Cube.cube_mesh Cube.alternating = Ok 32%float /\
  (deform (Cube.cube_data (Z.of_nat (S n)) 2) Cube.cube_iter 0).1 = Ok true /\
  geometry (deform (Cube.cube_data (Z.of_nat (S n)) 2) Cube.cube_iter 0).2
  = Cube.flattened /\
  Spec.deviation Cube.cube_mesh Cube.flattened = Ok 0%float.
Proof.
  assert ((get_weighted_componenents Cube.cube_iter 0 (Cube.cube_data 1 1)).1
          ≠ ∅) as Hweights.
  { intros Heq. apply (f_equal (fun d => d !! 0%nat)) in Heq.
    vm_compute in Heq. discriminate. }
  assert (deform (Cube.cube_data (Z.of_nat (S n)) 1) Cube.cube_iter 0
          = (Ok true, mkItGeometry [] (Cube.after_iterations (S n)))) as ->.
  { rewrite deform_proceeds; try reflexivity; [|exact Hweights].
    pose proof (cube_relax (S n)) as Hrelax.
    simpl in *. unfold allPositions. simpl. by rewrite Hrelax. }
  assert (deform (Cube.cube_data (Z.of_nat (S n)) 2) Cube.cube_iter 0
          = (Ok true, mkItGeometry [] Cube.flattened)) as ->.
  { rewrite deform_proceeds; try reflexivity; [|exact Hweights].
    pose proof (cube_relax_two_steps n) as Hrelax.
    simpl in *. unfold allPositions. simpl. by rewrite Hrelax. }
  simpl. split; [reflexivity|]. split; [reflexivity|].
  split; [reflexivity|]. split; [|repeat split; vm_compute; reflexivity].
  unfold Cube.after_iterations.
  destruct (Nat.even (S n)); vm_compute; reflexivity.
Qed.

(** * Further properties *)

Section totality.
Context (it : MItMeshVertex) (cwd : dict float) (env str : float).
Implicit Types (P Q : MPointArray).

Local Abbreviation indices_ok := (Spec.indices_ok it cwd).

Lemma new_position_total steps_value step P v :
  indices_ok P -> is_Some (cwd !! v) ->
  exists new_pos,
    new_position it P cwd env str steps_value step v = Ok new_pos.
Proof.
  intros [Hkeys Hedges] Hv. destruct (Hkeys v Hv) as [HvP Hvmesh].
  destruct Hv as [w Hw].
  destruct (lookup_lt_is_Some_2 _ _ HvP) as [pos Hpos].
  destruct (lookup_lt_is_Some_2 _ _ Hvmesh) as [nbrs Hnbrs].
  assert (is_Some (Spec.positions_of P nbrs)) as [nps Hnps].
  { apply mapM_is_Some.
    eapply Forall_impl; [by eapply (Forall_lookup_1 _ _ _ _ Hedges)|].
    intros j Hj; simpl in *. by apply lookup_lt_is_Some_2. }
  eexists. apply new_position_Ok.
  exists w, pos, (Spec.mean nps). split; [done|]. split; [done|].
  split; [|done]. apply average_position_Ok. by exists nbrs, nps.
Qed.

Lemma sub_pass_total steps_value step P :
  indices_ok P ->
  exists Q,
    sub_pass it cwd env str steps_value step P = Ok Q /\ indices_ok Q.
Proof.
  intros Hok.
  destruct (component_loop_Ok it cwd env str steps_value step
              P (dict_keys cwd) P) as [Q HQ]; [done| |].
  { intros v Hv. apply new_position_total; [done|].
    by apply elem_of_dict_keys. }
  exists Q. split; [done|].
  apply component_loop_lookup in HQ as (Hlen & _).
  unfold Spec.indices_ok in *. by rewrite Hlen.
Qed.

Lemma relax_total iter_value steps_value P :
  indices_ok P ->
  exists Q,
    relax it cwd env str iter_value steps_value P = Ok Q /\ indices_ok Q.
Proof.
  intros Hok. unfold relax.
  apply (for_each_total indices_ok); [|done].
  intros _ R HR. unfold iteration.
  apply (for_each_total indices_ok); [|done].
  intros step' R' HR'. by apply sub_pass_total.
Qed.

End totality.

(** X1.  On a geometry whose components are vertices of the mesh with a
    position, the connected vertices having positions too, [deform] does not
    raise: it returns [False] or [True]. *)
Theorem deform_returns_on_valid_indices data geom_iter geom_index :
  Spec.valid_indices (get_input_mesh data geom_index)
    (components geom_iter) (geometry geom_iter) ->
  exists b, (deform data geom_iter geom_index).1 = Ok b.
Proof.
  intros [Hcomps Hedges].
  destruct (deform_cases data geom_iter geom_index) as [[Hret _]|Hrun];
    [by exists false|].
  simpl in Hrun.
  destruct (relax_total
              (MItMeshVertex_new (get_input_mesh data geom_index))
              (weighted_components_loop (weightValue data geom_index)
                 (components geom_iter) ∅)
              (envelope data) (strength data)
              (iterations data) (steps data) (geometry geom_iter))
    as (Q & HQ & _).
  { split; [|done]. intros v [w Hw].
    apply weighted_components_loop_entry in Hw as (Hv & _).
    by eapply Forall_forall in Hcomps. }
  rewrite HQ in Hrun. destruct Hrun as [Hret _]. by exists true.
Qed.

(** The ring is such a geometry. *)
Lemma deform_returns_on_valid_indices_witness :
  exists b, (deform (Ring.ring_data 1 0.5 2 3) Ring.ring_iter 0).1 = Ok b.
Proof.
  apply (deform_returns_on_valid_indices
           (Ring.ring_data 1 0.5 2 3) Ring.ring_iter 0).
  split; repeat constructor.
Defined.

(** X2.  The geometry has as many points after [deform] as before. *)
Theorem deform_keeps_point_count data geom_iter geom_index :
  length (geometry (deform data geom_iter geom_index).2)
  = length (geometry geom_iter).
Proof.
  destruct (deform_cases data geom_iter geom_index) as [[_ Hgeom]|Hrun];
    [by rewrite Hgeom|].
  simpl in Hrun.
  destruct (relax _ _ _ _ _ _ _) as [Q|e] eqn:Hrelax.
  - destruct Hrun as [_ ->]. revert Hrelax.
    apply (for_each_invariant
             (fun Q : MPointArray => length Q = length (geometry geom_iter)));
      [|done].
    intros _ R R' _ HR.
    apply (for_each_invariant
             (fun Q : MPointArray => length Q = length (geometry geom_iter)));
      [|done].
    intros step S S' _ HS Hpass.
    apply sub_pass_length in Hpass. congruence.
  - destruct Hrun as [_ Hgeom]. by rewrite Hgeom.
Qed.

(** ** More on loops *)

Section more_loops.
Context {A S : Type}.
Implicit Types (xs : list A) (body : A -> S -> result S) (s : S).

Lemma for_each_ext_in xs body body' s :
  (forall x t, x ∈ xs -> body x t = body' x t) ->
  for_each xs body s = for_each xs body' s.
Proof.
  revert s. induction xs as [|x xs IH]; intros s Hext; simpl; [done|].
  rewrite Hext by by left.
  destruct (body' x s) as [t|e]; simpl; [|done].
  apply IH. intros y u Hy. apply Hext. by right.
Qed.

Lemma for_each_id xs body s :
  (forall x t, body x t = Ok t) -> for_each xs body s = Ok s.
Proof.
  intros Hid. induction xs as [|x xs IH]; simpl; [done|].
  by rewrite Hid.
Qed.

(** A loop that raises does so in one of its rounds, entered in a state
    that the rounds before it produced. *)
Lemma for_each_Raise (I : S -> Prop) xs body s e :
  (forall x t t', x ∈ xs -> I t -> body x t = Ok t' -> I t') ->
  I s -> for_each xs body s = Raise e ->
  exists x t, x ∈ xs /\ I t /\ body x t = Raise e.
Proof.
  revert s. induction xs as [|x xs IH]; intros s Hkeep Hs Hrun; simpl in Hrun;
    [done|].
  destruct (body x s) as [t|e'] eqn:Hx; simpl in Hrun.
  - destruct (IH t) as (y & u & Hy & Hu & Hbody); [| |done|].
    + intros y u u' Hy. apply Hkeep. by right.
    + eapply Hkeep; [by left|done..].
    + exists y, u. split; [by right|done].
  - simplify_eq. exists x, s. split; [by left|done].
Qed.

End more_loops.

Lemma range_pos (n : Z) : (0 < n)%Z -> exists rest, range n = 0%Z :: rest.
Proof.
  intros Hn. unfold range.
  destruct (Z.to_nat n) as [|k] eqn:Hk; [lia|].
  simpl. by eexists.
Qed.

(** ** The weight dictionary, from the outside *)

Lemma weighted_components_lookup geom_iter geom_index data v w :
  (get_weighted_componenents geom_iter geom_index data).1 !! v = Some w
  <-> v ∈ components geom_iter /\
      weightValue data geom_index v = w /\
      PrimFloat.eqb w 0 = false.
Proof.
  simpl. split.
  - intros Hv.
    apply weighted_components_loop_entry in Hv as (Hin & -> & Hw).
    unfold truthy_float in Hw. by apply negb_true_iff in Hw.
  - intros (Hin & <- & Hw).
    apply weighted_components_loop_keep; [done|].
    unfold truthy_float. by rewrite Hw.
Qed.

Lemma weight_dictionary_same_lookups geom_iter geom_iter' geom_index data v :
  (forall u, u ∈ components geom_iter <-> u ∈ components geom_iter') ->
  (get_weighted_componenents geom_iter geom_index data).1 !! v
  = (get_weighted_componenents geom_iter' geom_index data).1 !! v.
Proof.
  intros Hsame. apply option_eq. intros w.
  rewrite !weighted_components_lookup. by rewrite Hsame.
Qed.

(** X3.  The dictionary [get_weighted_componenents] returns holds exactly
    the components the iterator visits whose weight is not zero, each with
    its weight; the iterator is left done, its points untouched. *)
Theorem weight_dictionary_lookup geom_iter geom_index data v w :
  ((get_weighted_componenents geom_iter geom_index data).1 !! v = Some w
   <-> v ∈ components geom_iter /\
       weightValue data geom_index v = w /\
       PrimFloat.eqb w 0 = false) /\
  components (get_weighted_componenents geom_iter geom_index data).2 = [] /\
  geometry (get_weighted_componenents geom_iter geom_index data).2
  = geometry geom_iter.
Proof. split; [apply weighted_components_lookup | done]. Qed.

(** *** The order of the keys *)

Lemma items_set_keys {V} (l : list (nat * V)) k v :
  (items_set k v l).*1 = if decide (k ∈ l.*1) then l.*1 else l.*1 ++ [k].
Proof.
  induction l as [|[k' v'] l IH].
  - rewrite decide_False; [done|]. by intros ?%elem_of_nil.
  - cbn [items_set]. rewrite (fmap_cons fst (k', v') l). cbn [fst].
    destruct (decide (k' = k)) as [->|Hne].
    + rewrite decide_True by by left. done.
    + rewrite fmap_cons, IH. cbn [fst].
      destruct (decide (k ∈ l.*1)) as [Hin|Hout].
      * rewrite decide_True by by right. done.
      * rewrite decide_False; [done|].
        intros [->|?]%elem_of_cons; done.
Qed.

(** No key is walked twice. *)
Lemma weighted_components_loop_NoDup weight_of remaining (weights : dict float) :
  NoDup (dict_keys weights) ->
  NoDup (dict_keys (weighted_components_loop weight_of remaining weights)).
Proof.
  revert weights.
  induction remaining as [|index rest IH]; intros weights Hnodup; simpl;
    [done|].
  apply IH. destruct (truthy_float (weight_of index)); [|done].
  unfold dict_keys, insert, dict_insert. simpl. rewrite items_set_keys.
  case_decide as Hin; [done|].
  apply NoDup_app. split; [done|]. split.
  - intros k Hk [->|?%elem_of_nil]%elem_of_cons; done.
  - apply NoDup_singleton.
Qed.

Section key_order.
Context (it : MItMeshVertex) (cwd cwd' : dict float) (env str : float).
Context (Hlookups : forall v, cwd !! v = cwd' !! v).
Context (Hnodup : NoDup (dict_keys cwd)) (Hnodup' : NoDup (dict_keys cwd')).
Implicit Types (P : MPointArray).

Lemma dict_keys_same_lookups : dict_keys cwd ≡ₚ dict_keys cwd'.
Proof using Hlookups Hnodup Hnodup'.
  apply NoDup_Permutation; [done..|].
  intros v. by rewrite !elem_of_dict_keys, Hlookups.
Qed.

Lemma sub_pass_same_lookups steps_value step P :
  returned (sub_pass it cwd env str steps_value step P)
  = returned (sub_pass it cwd' env str steps_value step P).
Proof using Hlookups Hnodup Hnodup'.
  unfold sub_pass.
  rewrite (sub_pass_in_order_perm it cwd env str steps_value step
             (dict_keys cwd) (dict_keys cwd') P dict_keys_same_lookups).
  f_equal. unfold sub_pass_in_order. apply for_each_ext.
  intros v nb. unfold relax_component, dict_get. by rewrite Hlookups.
Qed.

Lemma for_each_same_returned {A} (xs : list A)
    (body body' : A -> MPointArray -> result MPointArray) P :
  (forall x Q, returned (body x Q) = returned (body' x Q)) ->
  returned (for_each xs body P) = returned (for_each xs body' P).
Proof using Type.
  intros Hbody. revert P.
  induction xs as [|x xs IH]; intros P; simpl; [done|].
  specialize (Hbody x P).
  destruct (body x P) as [Q|e], (body' x P) as [Q'|e']; simpl in *;
    simplify_eq; [apply IH|done].
Qed.

Lemma relax_same_lookups iter_value steps_value P :
  returned (relax it cwd env str iter_value steps_value P)
  = returned (relax it cwd' env str iter_value steps_value P).
Proof using Hlookups Hnodup Hnodup'.
  apply for_each_same_returned. intros _ Q.
  apply for_each_same_returned. intros step R.
  apply sub_pass_same_lookups.
Qed.

End key_order.

(** X4.  Which components the iterator visits matters to [deform], their
    order and repetitions only to which exception comes first.  Two iterators
    over the same points that visit the same components leave the same
    points, and both return the same value or both raise; the exceptions can
    differ, since the dictionary is walked in insertion order and the first
    faulty vertex met raises: on a mesh of three vertices whose vertex 0
    names a vertex without position, and four points, visiting 0,1,2,3
    raises [IndexError] (at vertex 0) and visiting 3,2,1,0 raises
    [RuntimeError] (vertex 3 is not a vertex of the mesh). *)
Theorem deform_same_components data geom_iter geom_iter' geom_index :
  (forall v, v ∈ components geom_iter <-> v ∈ components geom_iter') ->
  geometry geom_iter = geometry geom_iter' ->
  returned (deform data geom_iter geom_index).1
  = returned (deform data geom_iter' geom_index).1 /\
  geometry (deform data geom_iter geom_index).2
  = geometry (deform data geom_iter' geom_index).2 /\
  (deform (mkDataBlock 1 1 1 1 (fun _ _ => 1%float)
             (fun _ => [[1; 7]; [0; 2]; [1]]%nat))
     (mkItGeometry [0; 1; 2; 3]%nat Ring.ring_points) 0).1
  = Raise IndexError /\
  (deform (mkDataBlock 1 1 1 1 (fun _ _ => 1%float)
             (fun _ => [[1; 7]; [0; 2]; [1]]%nat))
     (mkItGeometry [3; 2; 1; 0]%nat Ring.ring_points) 0).1
  = Raise RuntimeError.
Proof.
  intros Hsame Hgeom.
  split; [|split; [|split; vm_compute; reflexivity]].
  all: pose proof (fun v => weight_dictionary_same_lookups
                     geom_iter geom_iter' geom_index data v Hsame) as Hcwd.
  all: assert ((get_weighted_componenents geom_iter geom_index data).1 = ∅
               <-> (get_weighted_componenents geom_iter' geom_index data).1
                   = ∅) as Hempty
         by (rewrite !dict_empty_iff; by setoid_rewrite Hcwd).
  all: pose proof (relax_same_lookups
                     (MItMeshVertex_new (get_input_mesh data geom_index))
                     _ _ (envelope data) (strength data) Hcwd
                     (weighted_components_loop_NoDup _ _ ∅ (NoDup_nil_2))
                     (weighted_components_loop_NoDup _ _ ∅ (NoDup_nil_2))
                     (iterations data) (steps data) (geometry geom_iter))
         as Hrun.
  all: destruct geom_iter as [comps P], geom_iter' as [comps' P'].
  all: simpl in *; subst P'; unfold deform; simpl.
  all: destruct (truthy_float (envelope data)); simpl; [|done].
  all: destruct (truthy_int (iterations data)); simpl; [|done].
  all: destruct (truthy_int (steps data)); simpl; [|done].
  all: destruct (truthy_float (strength data)); simpl; [|done].
  all: rewrite (bool_decide_ext _ _ Hempty).
  all: case_bool_decide; simpl; [done|].
  all: unfold allPositions; simpl.
  all: destruct (relax _ (weighted_components_loop _ comps ∅) _ _ _ _ _)
         as [Q|e],
       (relax _ (weighted_components_loop _ comps' ∅) _ _ _ _ _) as [Q'|e'];
       simpl in *; by simplify_eq.
Qed.

(** The ring visited backwards, vertex 0 twice. *)
Lemma deform_same_components_witness :
  returned (deform (Ring.ring_data 1 0.5 2 3) Ring.ring_iter 0).1
  = returned (deform (Ring.ring_data 1 0.5 2 3)
                (mkItGeometry [0; 3; 2; 1; 0]%nat Ring.ring_points) 0).1 /\
  geometry (deform (Ring.ring_data 1 0.5 2 3) Ring.ring_iter 0).2
  = geometry (deform (Ring.ring_data 1 0.5 2 3)
                (mkItGeometry [0; 3; 2; 1; 0]%nat Ring.ring_points) 0).2.
Proof.
  assert (forall v,
            v ∈ components Ring.ring_iter
            <-> v ∈ components
                  (mkItGeometry [0; 3; 2; 1; 0]%nat Ring.ring_points))
    as Hsame.
  { intros v. simpl. rewrite !elem_of_cons, !elem_of_nil. tauto. }
  pose proof (deform_same_components (Ring.ring_data 1 0.5 2 3)
                Ring.ring_iter
                (mkItGeometry [0; 3; 2; 1; 0]%nat Ring.ring_points) 0
                Hsame eq_refl) as (Hret & Hgeom & _).
  by split.
Defined.

(** ** The neighbour average, from the outside *)

Section average_outside.
Context (it : MItMeshVertex).
Implicit Types (P : MPointArray) (nbrs : list nat).

Lemma total_pos_loop_Raise P nbrs total0 e :
  for_each nbrs
    (fun j total_pos =>
       p ← MPointArray_get P j; Ok (MPoint_add total_pos (MVector_of p)))
    total0 = Raise e
  <-> e = IndexError /\ exists j, j ∈ nbrs /\ length P <= j.
Proof.
  revert total0. induction nbrs as [|j nbrs IH]; intros total0; simpl.
  - split; [done|]. intros (_ & j & Hj & _). by apply elem_of_nil in Hj.
  - unfold MPointArray_get at 1.
    destruct (P !! j) as [p|] eqn:Hj; simpl.
    + rewrite IH. split.
      * intros (-> & k & Hk & Hlen). split; [done|].
        exists k. split; [by right|done].
      * intros (-> & k & Hk & Hlen). split; [done|].
        exists k. split; [|done].
        apply elem_of_cons in Hk as [->|Hk]; [|done].
        apply lookup_lt_Some in Hj. lia.
    + split.
      * intros [= <-]. split; [done|].
        exists j. split; [by left|]. by apply lookup_ge_None.
      * by intros (-> & _).
Qed.

Lemma average_position_Raise P v e :
  get_component_average_position it P v = Raise e
  <-> (e = RuntimeError /\ length (mesh it) <= v) \/
      (e = IndexError /\
       exists nbrs j, mesh it !! v = Some nbrs /\ j ∈ nbrs /\ length P <= j).
Proof.
  unfold get_component_average_position, setIndex.
  destruct (decide (v < length (mesh it))) as [Hv|Hv]; simpl.
  - destruct (lookup_lt_is_Some_2 _ _ Hv) as [nbrs Hnbrs].
    unfold getConnectedVertices; simpl. rewrite Hnbrs; simpl.
    destruct (for_each nbrs _ MPoint_new) as [total|e'] eqn:Hloop; simpl.
    + split; [done|].
      intros [[_ ?]|(-> & nbrs' & j & Hn & Hj & Hlen)]; [lia|].
      injection Hn as <-.
      assert (for_each nbrs
                (fun j total_pos =>
                   p ← MPointArray_get P j;
                   Ok (MPoint_add total_pos (MVector_of p)))
                MPoint_new = Raise IndexError) as Hraise.
      { apply total_pos_loop_Raise. split; [done|]. by exists j. }
      congruence.
    + apply total_pos_loop_Raise in Hloop as (-> & j & Hj & Hlen). split.
      * intros [= <-]. right. split; [done|]. by exists nbrs, j.
      * intros [[_ ?]|(-> & _)]; [lia|done].
  - split.
    + intros [= <-]. left. split; [done|lia].
    + intros [(-> & _)|(_ & nbrs & j & Hnbrs & _)]; [done|].
      apply lookup_lt_Some in Hnbrs. lia.
Qed.

Lemma average_position_agree P P' v :
  (forall nbrs j, mesh it !! v = Some nbrs -> j ∈ nbrs -> P !! j = P' !! j) ->
  get_component_average_position it P v
  = get_component_average_position it P' v.
Proof.
  intros Hagree. unfold get_component_average_position, setIndex.
  destruct (decide (v < length (mesh it))) as [Hv|Hv]; simpl; [|done].
  destruct (lookup_lt_is_Some_2 _ _ Hv) as [nbrs Hnbrs].
  unfold getConnectedVertices; simpl. rewrite Hnbrs; simpl.
  rewrite (for_each_ext_in nbrs _
             (fun j total_pos =>
                p ← MPointArray_get P' j;
                Ok (MPoint_add total_pos (MVector_of p)))); [done|].
  intros j t Hj. unfold MPointArray_get. by rewrite (Hagree nbrs j).
Qed.

End average_outside.

(** X5.  [get_component_average_position] returns a point exactly when
    [vtx_index] is a vertex of the mesh and every vertex connected to it has a
    position.  It raises [RuntimeError] exactly when [vtx_index] is not a
    vertex of the mesh ([setIndex] fails), and [IndexError] exactly when it
    is one and some connected vertex has no position. *)
Theorem average_position_outcomes it (P : MPointArray) v :
  ((exists avg, get_component_average_position it P v = Ok avg)
   <-> exists nbrs,
         mesh it !! v = Some nbrs /\ Forall (fun j => j < length P) nbrs) /\
  (get_component_average_position it P v = Raise RuntimeError
   <-> length (mesh it) <= v) /\
  (get_component_average_position it P v = Raise IndexError
   <-> exists nbrs j, mesh it !! v = Some nbrs /\ j ∈ nbrs /\ length P <= j) /\
  get_component_average_position it P v ≠ Raise KeyError.
Proof.
  split; [|split; [|split]].
  - split.
    + intros (avg & Havg).
      apply average_position_Ok in Havg as (nbrs & nps & Hnbrs & Hnps & _).
      exists nbrs. split; [done|].
      apply mapM_Some in Hnps. apply Forall_forall. intros j Hj.
      apply list_elem_of_lookup in Hj as [i Hi].
      destruct (Forall2_lookup_l _ _ _ _ _ Hnps Hi) as (p & _ & Hp).
      by eapply lookup_lt_Some.
    + intros (nbrs & Hnbrs & Hall).
      assert (is_Some (Spec.positions_of P nbrs)) as [nps Hnps].
      { apply mapM_is_Some. eapply Forall_impl; [exact Hall|].
        intros j Hj; simpl in *. by apply lookup_lt_is_Some_2. }
      exists (Spec.mean nps). apply average_position_Ok. by exists nbrs, nps.
  - rewrite average_position_Raise. split.
    + by intros [[_ ?]|[[=] _]].
    + intros Hv. by left.
  - rewrite average_position_Raise. split.
    + by intros [[[=] _]|[_ ?]].
    + intros Hj. by right.
  - intros [[[=] _]|[[=] _]]%average_position_Raise.
Qed.

(** X6.  The average computed for a vertex reads the positions of the
    vertices connected to it and nothing else: two buffers that agree there
    give the same point, or the same exception. *)
Theorem average_position_local it (P P' : MPointArray) v :
  (forall nbrs j, mesh it !! v = Some nbrs -> j ∈ nbrs -> P !! j = P' !! j) ->
  get_component_average_position it P v
  = get_component_average_position it P' v.
Proof. apply average_position_agree. Qed.

(** The ring and a buffer that differs from it at vertices 0 and 2, which
    are not connected to vertex 0. *)
Lemma average_position_local_witness :
  get_component_average_position (MItMeshVertex_new Ring.ring_mesh)
    Ring.ring_points 0
  = get_component_average_position (MItMeshVertex_new Ring.ring_mesh)
      [mkPoint 7 7 7; mkPoint 1 0 0; mkPoint 9 9 9; mkPoint 0 1 0] 0.
Proof.
  apply (average_position_local (MItMeshVertex_new Ring.ring_mesh)
           Ring.ring_points
           [mkPoint 7 7 7; mkPoint 1 0 0; mkPoint 9 9 9; mkPoint 0 1 0] 0%nat).
  intros nbrs j [= <-] Hj.
  apply elem_of_cons in Hj as [->|Hj]; [reflexivity|].
  apply elem_of_cons in Hj as [->|Hj]; [reflexivity|].
  by apply elem_of_nil in Hj.
Defined.

(** ** When the relaxation succeeds *)

Section validity.
Context (it : MItMeshVertex) (cwd : dict float) (env str : float).
Implicit Types (P Q : MPointArray).

Lemma component_ok_spec P v :
  Reach.component_ok it P v = true
  <-> v < length P /\
      exists nbrs,
        mesh it !! v = Some nbrs /\ Forall (fun j => j < length P) nbrs.
Proof.
  unfold Reach.component_ok. rewrite andb_true_iff, bool_decide_eq_true.
  destruct (mesh it !! v) as [nbrs|]; split.
  - intros [Hv Hall]. split; [done|]. exists nbrs. split; [done|].
    apply Forall_forall. intros j Hj.
    rewrite forallb_forall in Hall.
    apply list_elem_of_In, Hall in Hj. by apply bool_decide_eq_true in Hj.
  - intros (Hv & nbrs' & [= <-] & Hall). split; [done|].
    apply forallb_forall. intros j Hj. apply bool_decide_eq_true.
    apply list_elem_of_In in Hj. by eapply Forall_forall in Hall.
  - by intros [_ ?].
  - by intros (_ & nbrs & ? & _).
Qed.

Lemma new_position_Ok_iff steps_value step P v :
  is_Some (cwd !! v) ->
  (exists new_pos,
     new_position it P cwd env str steps_value step v = Ok new_pos)
  <-> Reach.component_ok it P v = true.
Proof.
  intros [w Hw]. rewrite component_ok_spec. split.
  - intros (new_pos & Hnew).
    apply new_position_Ok in Hnew as (_ & pos & avg & _ & Hpos & Havg & _).
    split; [by eapply lookup_lt_Some|].
    apply average_position_Ok in Havg as (nbrs & nps & Hnbrs & Hnps & _).
    exists nbrs. split; [done|].
    apply mapM_Some in Hnps. apply Forall_forall. intros j Hj.
    apply list_elem_of_lookup in Hj as [i Hi].
    destruct (Forall2_lookup_l _ _ _ _ _ Hnps Hi) as (p & _ & Hp).
    by eapply lookup_lt_Some.
  - intros (Hv & nbrs & Hnbrs & Hall).
    destruct (lookup_lt_is_Some_2 _ _ Hv) as [pos Hpos].
    assert (is_Some (Spec.positions_of P nbrs)) as [nps Hnps].
    { apply mapM_is_Some. eapply Forall_impl; [exact Hall|].
      intros j Hj; simpl in *. by apply lookup_lt_is_Some_2. }
    eexists. apply new_position_Ok.
    exists w, pos, (Spec.mean nps). split; [done|]. split; [done|].
    split; [|done]. apply average_position_Ok. by exists nbrs, nps.
Qed.

Lemma sub_pass_Ok_iff steps_value step P :
  (exists Q, sub_pass it cwd env str steps_value step P = Ok Q)
  <-> Reach.keys_ok it cwd P = true.
Proof.
  unfold Reach.keys_ok. rewrite forallb_forall. split.
  - intros [Q HQ] v Hv%list_elem_of_In.
    apply sub_pass_in_order_lookup in HQ as (_ & Hin & _).
    destruct (Hin v Hv) as (new_pos & Hnew & _).
    eapply new_position_Ok_iff; [by apply elem_of_dict_keys|by eexists].
  - intros Hall.
    apply (component_loop_Ok it cwd env str steps_value step P
             (dict_keys cwd) P); [done|].
    intros v Hv. apply new_position_Ok_iff; [by apply elem_of_dict_keys|].
    by apply Hall, list_elem_of_In.
Qed.

Lemma keys_ok_length P Q :
  length Q = length P -> Reach.keys_ok it cwd Q = Reach.keys_ok it cwd P.
Proof.
  intros Hlen. unfold Reach.keys_ok, Reach.component_ok. by rewrite Hlen.
Qed.

Lemma relax_Ok_of_keys_ok iter_value steps_value P :
  Reach.keys_ok it cwd P = true ->
  exists Q, relax it cwd env str iter_value steps_value P = Ok Q /\
            length Q = length P.
Proof.
  intros Hok. unfold relax.
  apply (for_each_total (fun Q : MPointArray => length Q = length P));
    [|done].
  intros _ R HR. unfold iteration.
  apply (for_each_total (fun Q : MPointArray => length Q = length P));
    [|done].
  intros step R' HR'.
  destruct (proj2 (sub_pass_Ok_iff steps_value step R')) as [Q HQ].
  { by rewrite (keys_ok_length P R'). }
  exists Q. split; [done|].
  apply sub_pass_length in HQ. congruence.
Qed.

(** Without a round to run, the relaxation returns its input. *)
Lemma relax_nothing iter_value steps_value P :
  (iter_value <= 0)%Z \/ (steps_value <= 0)%Z ->
  relax it cwd env str iter_value steps_value P = Ok P.
Proof.
  intros [Hiter|Hsteps]; unfold relax.
  - by rewrite range_nonpos.
  - apply for_each_id. intros _ R. unfold iteration.
    by rewrite range_nonpos.
Qed.

(** With a round to run, the first thing done is sub-pass 0. *)
Lemma relax_first_sub_pass iter_value steps_value P :
  (0 < iter_value)%Z -> (0 < steps_value)%Z ->
  exists rest,
    relax it cwd env str iter_value steps_value P
    = sub_pass it cwd env str steps_value 0 P ≫= rest.
Proof.
  intros Hiter Hsteps. unfold relax, iteration.
  destruct (range_pos _ Hiter) as [ks ->].
  destruct (range_pos _ Hsteps) as [ss ->]. simpl.
  exists (fun Q =>
    for_each ss (sub_pass it cwd env str steps_value) Q
      ≫= for_each ks
           (fun _ =>
              for_each (0%Z :: ss) (sub_pass it cwd env str steps_value))).
  by destruct (sub_pass it cwd env str steps_value 0 P).
Qed.

Lemma relax_Raise_iff iter_value steps_value P e :
  relax it cwd env str iter_value steps_value P = Raise e
  <-> (0 < iter_value)%Z /\ (0 < steps_value)%Z /\
      sub_pass it cwd env str steps_value 0 P = Raise e.
Proof.
  split.
  - intros Hraise.
    destruct (decide (0 < iter_value)%Z) as [Hiter|Hiter];
      [|by rewrite relax_nothing in Hraise by lia].
    destruct (decide (0 < steps_value)%Z) as [Hsteps|Hsteps];
      [|by rewrite relax_nothing in Hraise by lia].
    split; [done|]. split; [done|].
    destruct (sub_pass it cwd env str steps_value 0 P) as [Q|e'] eqn:Hfirst.
    + destruct (relax_Ok_of_keys_ok iter_value steps_value P) as (R & HR & _).
      { apply (sub_pass_Ok_iff steps_value 0). by exists Q. }
      congruence.
    + destruct (relax_first_sub_pass iter_value steps_value P Hiter Hsteps)
        as [rest Hrest].
      rewrite Hrest, Hfirst in Hraise. simpl in Hraise. congruence.
  - intros (Hiter & Hsteps & Hfirst).
    destruct (relax_first_sub_pass iter_value steps_value P Hiter Hsteps)
      as [rest Hrest].
    by rewrite Hrest, Hfirst.
Qed.

End validity.

(** X7.  Whether a sub-pass succeeds is a matter of indices only: it does
    exactly when every key of the weight dictionary is a vertex of the mesh
    with a position and every vertex connected to a key has a position.  The
    coordinates, the settings and the step play no part. *)
Theorem sub_pass_succeeds_iff
    it cwd env str steps_value step (P : MPointArray) :
  ((exists Q, sub_pass it cwd env str steps_value step P = Ok Q)
   <-> Reach.keys_ok it cwd P = true) /\
  (Reach.keys_ok it cwd P = true
   <-> forall v,
         is_Some (cwd !! v) ->
         v < length P /\
         exists nbrs,
           mesh it !! v = Some nbrs /\ Forall (fun j => j < length P) nbrs).
Proof.
  split; [apply sub_pass_Ok_iff|].
  unfold Reach.keys_ok. rewrite forallb_forall. split.
  - intros Hall v Hv. apply component_ok_spec, Hall, list_elem_of_In.
    by apply elem_of_dict_keys.
  - intros Hall v Hv%list_elem_of_In%elem_of_dict_keys.
    by apply component_ok_spec, Hall.
Qed.

(** ** What [deform] returns *)

Section outcome.
Context (data : MDataBlock) (geom_iter : MItGeometry) (geom_index : nat).

Local Abbreviation cwd :=
  (get_weighted_componenents geom_iter geom_index data).1.
Local Abbreviation it :=
  (MItMeshVertex_new (get_input_mesh data geom_index)).
Local Abbreviation run :=
  (relax it cwd (envelope data) (strength data) (iterations data)
     (steps data) (geometry geom_iter)).

(** The five guards, as conditions on the inputs. *)
Lemma deform_False_iff :
  (deform data geom_iter geom_index).1 = Ok false
  <-> PrimFloat.eqb (envelope data) 0 = true \/
      iterations data = 0%Z \/
      steps data = 0%Z \/
      PrimFloat.eqb (strength data) 0 = true \/
      cwd = ∅.
Proof.
  unfold deform, truthy_float, truthy_int.
  destruct (PrimFloat.eqb (envelope data) 0) eqn:Henv; simpl;
    [by split; [left|]|].
  destruct (Z.eqb_spec (iterations data) 0) as [Hiter|Hiter]; simpl;
    [by split; [right; left|]|].
  destruct (Z.eqb_spec (steps data) 0) as [Hsteps|Hsteps]; simpl;
    [by split; [do 2 right; left|]|].
  destruct (PrimFloat.eqb (strength data) 0) eqn:Hstr; simpl;
    [by split; [do 3 right; left|]|].
  case_bool_decide as Hweights; simpl; [by split; [do 4 right|]|].
  split.
  - by destruct (relax _ _ _ _ _ _ _).
  - intros [?|[?|[?|[?|?]]]]; done.
Qed.

Lemma deform_of_run :
  (deform data geom_iter geom_index).1 ≠ Ok false ->
  (deform data geom_iter geom_index).1
  = match run with
    | Ok _ => Ok true
    | Raise e => Raise e
    end /\
  geometry (deform data geom_iter geom_index).2
  = match run with
    | Ok Q => Q
    | Raise _ => geometry geom_iter
    end.
Proof.
  intros Hnot.
  destruct (deform_cases data geom_iter geom_index) as [[Hret _]|Hrun];
    [done|].
  simpl in Hrun. by destruct (relax _ _ _ _ _ _ _); destruct Hrun.
Qed.

End outcome.

(** X8.  The return value of [deform], read off its inputs.  It returns
    [False] exactly when the envelope, the iteration count, the step count or
    the strength is zero or no visited component has a nonzero weight.
    Otherwise it returns [True] when the iteration count or the step count is
    negative (no sub-pass runs) or all indices are valid, and it raises
    exactly when both counts are positive and the first sub-pass raises: the
    exception is that of the first sub-pass, no later sub-pass can fail. *)
Theorem deform_return_value data geom_iter geom_index :
  let cwd := (get_weighted_componenents geom_iter geom_index data).1 in
  let it := MItMeshVertex_new (get_input_mesh data geom_index) in
  let nonzero :=
    PrimFloat.eqb (envelope data) 0 = false /\
    iterations data ≠ 0%Z /\
    steps data ≠ 0%Z /\
    PrimFloat.eqb (strength data) 0 = false /\
    cwd ≠ ∅ in
  ((deform data geom_iter geom_index).1 = Ok false
   <-> PrimFloat.eqb (envelope data) 0 = true \/
       iterations data = 0%Z \/
       steps data = 0%Z \/
       PrimFloat.eqb (strength data) 0 = true \/
       cwd = ∅) /\
  ((deform data geom_iter geom_index).1 = Ok true
   <-> nonzero /\
       ((iterations data < 0)%Z \/ (steps data < 0)%Z \/
        Reach.keys_ok it cwd (geometry geom_iter) = true)) /\
  (forall e,
     (deform data geom_iter geom_index).1 = Raise e
     <-> nonzero /\ (0 < iterations data)%Z /\ (0 < steps data)%Z /\
         sub_pass it cwd (envelope data) (strength data) (steps data) 0
           (geometry geom_iter) = Raise e).
Proof.
  intros cwd it nonzero.
  assert ((deform data geom_iter geom_index).1 = Ok false <-> ~ nonzero)
    as Hfalse.
  { rewrite deform_False_iff. unfold nonzero. fold cwd.
    destruct (PrimFloat.eqb (envelope data) 0);
      destruct (PrimFloat.eqb (strength data) 0);
      destruct (decide (iterations data = 0%Z));
      destruct (decide (steps data = 0%Z));
      destruct (decide (cwd = ∅)); split; intros H; try tauto;
      try (intros (? & ? & ? & ? & ?); done);
      try (exfalso; apply H; done);
      destruct H as [?|[?|[?|[?|?]]]]; done. }
  split; [apply deform_False_iff|].
  assert (nonzero ->
          (deform data geom_iter geom_index).1
          = match relax it cwd (envelope data) (strength data)
                    (iterations data) (steps data) (geometry geom_iter) with
            | Ok _ => Ok true
            | Raise e => Raise e
            end) as Hrun.
  { intros Hnz. apply deform_of_run. rewrite Hfalse. tauto. }
  assert ((deform data geom_iter geom_index).1 ≠ Ok false -> nonzero)
    as Hnz.
  { intros Hne. rewrite Hfalse in Hne. unfold nonzero in *.
    destruct (PrimFloat.eqb (envelope data) 0);
      destruct (PrimFloat.eqb (strength data) 0);
      destruct (decide (iterations data = 0%Z));
      destruct (decide (steps data = 0%Z));
      destruct (decide (cwd = ∅)); try done;
      exfalso; apply Hne; intros (? & ? & ? & ? & ?); done. }
  split.
  - split.
    + intros Htrue.
      assert (nonzero) as Hnonzero by (apply Hnz; congruence).
      split; [done|].
      rewrite (Hrun Hnonzero) in Htrue.
      destruct (decide (iterations data < 0)%Z); [by left|].
      destruct (decide (steps data < 0)%Z); [by right; left|].
      right; right.
      destruct (sub_pass it cwd (envelope data) (strength data) (steps data)
                  0 (geometry geom_iter)) as [Q|e] eqn:Hfirst.
      * apply (sub_pass_Ok_iff it cwd (envelope data) (strength data)
                 (steps data) 0). by exists Q.
      * destruct Hnonzero as (_ & ? & ? & _).
        rewrite (proj2 (relax_Raise_iff it cwd _ _ _ _ _ e)) in Htrue;
          [done|]. repeat split; [lia|lia|done].
    + intros (Hnonzero & Hcase). rewrite (Hrun Hnonzero).
      destruct Hcase as [Hiter|[Hsteps|Hok]].
      * by rewrite relax_nothing by lia.
      * by rewrite relax_nothing by lia.
      * destruct (relax_Ok_of_keys_ok it cwd (envelope data) (strength data)
                    (iterations data) (steps data) _ Hok) as (Q & -> & _).
        done.
  - intros e. split.
    + intros Hraise.
      assert (nonzero) as Hnonzero by (apply Hnz; congruence).
      split; [done|].
      rewrite (Hrun Hnonzero) in Hraise.
      apply relax_Raise_iff.
      by destruct (relax _ _ _ _ _ _ _); simplify_eq.
    + intros (Hnonzero & Hiter & Hsteps & Hfirst). rewrite (Hrun Hnonzero).
      by rewrite (proj2 (relax_Raise_iff it cwd _ _ _ _ _ e)).
Qed.

(** ** Which exception, and why *)

Lemma relax_component_length it cwd env str steps_value step
    (P nb nb' : MPointArray) v :
  relax_component it P cwd env str steps_value step v nb = Ok nb' ->
  length nb' = length nb.
Proof.
  rewrite relax_component_new_position.
  intros (p & _ & Hset)%bind_Ok.
  apply MPointArray_set_Ok in Hset as [_ ->]. apply length_insert.
Qed.

Lemma sub_pass_Raise it cwd env str steps_value step (P : MPointArray) e :
  sub_pass it cwd env str steps_value step P = Raise e ->
  exists v,
    is_Some (cwd !! v) /\
    ((e = IndexError /\
      (length P <= v \/
       exists nbrs j, mesh it !! v = Some nbrs /\ j ∈ nbrs /\ length P <= j))
     \/ (e = RuntimeError /\ v < length P /\ length (mesh it) <= v)).
Proof.
  intros Hraise.
  apply (for_each_Raise (fun nb : MPointArray => length nb = length P))
    in Hraise as (v & nb & Hv & Hnb & Hbody); [| |done].
  - exists v. apply elem_of_dict_keys in Hv as Hkey.
    split; [done|]. destruct Hkey as [w Hw].
    unfold relax_component, dict_get in Hbody. rewrite Hw in Hbody.
    simpl in Hbody. unfold MPointArray_get in Hbody.
    destruct (P !! v) as [pos|] eqn:Hpos; simpl in Hbody.
    + apply lookup_lt_Some in Hpos as Hlt.
      destruct (get_component_average_position it P v) as [avg|e'] eqn:Havg;
        simpl in Hbody.
      * unfold MPointArray_set in Hbody.
        rewrite decide_True in Hbody by lia. done.
      * simplify_eq.
        apply average_position_Raise in Havg
          as [[-> Hmesh]|(-> & nbrs & j & Hnbrs & Hj & Hlen)].
        -- right. done.
        -- left. split; [done|]. right. by exists nbrs, j.
    + simplify_eq. left. split; [done|]. left. by apply lookup_ge_None.
  - intros v nb nb' _ Hlen Hbody.
    apply relax_component_length in Hbody. congruence.
Qed.

(** X9.  [deform] raises nothing but [IndexError] and [RuntimeError], and
    each names a fault of a weighted vertex: [IndexError] when the vertex, or
    one connected to it, has no position; [RuntimeError] when the vertex has a
    position but is not a vertex of the input mesh.  No dictionary lookup
    fails and [new_positions.set] never does. *)
Theorem deform_exception_cause data geom_iter geom_index e :
  (deform data geom_iter geom_index).1 = Raise e ->
  exists v,
    is_Some ((get_weighted_componenents geom_iter geom_index data).1 !! v) /\
    ((e = IndexError /\
      (length (geometry geom_iter) <= v \/
       exists nbrs j,
         get_input_mesh data geom_index !! v = Some nbrs /\
         j ∈ nbrs /\ length (geometry geom_iter) <= j))
     \/ (e = RuntimeError /\
         v < length (geometry geom_iter) /\
         length (get_input_mesh data geom_index) <= v)).
Proof.
  intros Hraise.
  destruct (deform_of_run data geom_iter geom_index) as [Hrun _];
    [congruence|].
  rewrite Hrun in Hraise.
  destruct (relax _ _ _ _ _ _ _) as [Q|e'] eqn:Hrelax; [done|].
  simplify_eq.
  apply relax_Raise_iff in Hrelax as (_ & _ & Hfirst).
  by apply sub_pass_Raise in Hfirst.
Qed.

(** The ring whose vertex 3 names the missing vertex 5. *)
Lemma deform_exception_cause_witness :
  (deform Dangling.dangling_data Ring.ring_iter 0).1 = Raise IndexError /\
  exists v,
    is_Some
      ((get_weighted_componenents Ring.ring_iter 0
          Dangling.dangling_data).1 !! v) /\
    ((IndexError = IndexError /\
      (length (geometry Ring.ring_iter) <= v \/
       exists nbrs j,
         get_input_mesh Dangling.dangling_data 0 !! v = Some nbrs /\
         j ∈ nbrs /\ length (geometry Ring.ring_iter) <= j))
     \/ (IndexError = RuntimeError /\
         v < length (geometry Ring.ring_iter) /\
         length (get_input_mesh Dangling.dangling_data 0) <= v)).
Proof.
  split; [reflexivity|].
  apply (deform_exception_cause Dangling.dangling_data Ring.ring_iter 0
           IndexError).
  reflexivity.
Defined.

(** X10.  A negative iteration count or step count passes the guards but
    runs no sub-pass: [deform] returns [True] and writes the input points
    back, whatever the mesh and the indices are. *)
Theorem deform_negative_counts data geom_iter geom_index :
  PrimFloat.eqb (envelope data) 0 = false ->
  PrimFloat.eqb (strength data) 0 = false ->
  (get_weighted_componenents geom_iter geom_index data).1 ≠ ∅ ->
  iterations data ≠ 0%Z ->
  steps data ≠ 0%Z ->
  (iterations data < 0)%Z \/ (steps data < 0)%Z ->
  (deform data geom_iter geom_index).1 = Ok true /\
  geometry (deform data geom_iter geom_index).2 = geometry geom_iter.
Proof.
  intros Henv Hstr Hweights Hiter Hsteps Hneg.
  destruct (deform_of_run data geom_iter geom_index) as [Hret Hgeom].
  { rewrite deform_False_iff. intros [?|[?|[?|[?|?]]]]; congruence. }
  rewrite Hret, Hgeom. by rewrite relax_nothing by lia.
Qed.

(** The mesh with the missing vertex again, now with -2 iterations. *)
Lemma deform_negative_counts_witness :
  (deform (mkDataBlock 1 (-2) 3 1 (fun _ _ => 1%float)
             (fun _ => Dangling.dangling_mesh))
     Ring.ring_iter 0).1 = Ok true /\
  geometry (deform (mkDataBlock 1 (-2) 3 1 (fun _ _ => 1%float)
                      (fun _ => Dangling.dangling_mesh))
              Ring.ring_iter 0).2 = Ring.ring_points.
Proof.
  apply (deform_negative_counts
           (mkDataBlock 1 (-2) 3 1 (fun _ _ => 1%float)
              (fun _ => Dangling.dangling_mesh))
           Ring.ring_iter 0).
  - reflexivity.
  - reflexivity.
  - intros Heq. apply (f_equal (fun d => d !! 0%nat)) in Heq.
    vm_compute in Heq. discriminate.
  - discriminate.
  - discriminate.
  - left. reflexivity.
Defined.

(** ** Iterations add up *)

Lemma relax_add it cwd env str (a b : Z) steps_value (P : MPointArray) :
  (0 <= a)%Z -> (0 <= b)%Z ->
  relax it cwd env str (a + b) steps_value P
  = relax it cwd env str a steps_value P
      ≫= relax it cwd env str b steps_value.
Proof.
  intros Ha Hb. unfold relax.
  rewrite (for_each_const (range (a + b)) (range a ++ range b)).
  - apply for_each_app.
  - rewrite length_app, !range_length. lia.
Qed.

(** X11.  Iterations add up: running [deform] with [a] iterations and then,
    on the points it left, with [b] iterations leaves the points that one
    run with [a + b] iterations leaves; with [a] and [b] positive the second
    run also returns or raises what the single run does. *)
Theorem deform_iterations_add data geom_iter geom_index (a b : Z) :
  (0 <= a)%Z -> (0 <= b)%Z ->
  let first := deform (Reach.with_iterations data a) geom_iter geom_index in
  let second :=
    deform (Reach.with_iterations data b)
      (mkItGeometry (components geom_iter) (geometry first.2)) geom_index in
  let single :=
    deform (Reach.with_iterations data (a + b)) geom_iter geom_index in
  geometry single.2 = geometry second.2 /\
  ((0 < a)%Z -> (0 < b)%Z -> single.1 = second.1).
Proof.
  intros Ha Hb. destruct geom_iter as [comps P].
  destruct (decide (a = 0%Z)) as [->|Ha0].
  { split; [|lia]. simpl.
    unfold deform at 3. simpl.
    destruct (truthy_float (envelope data)); simpl; reflexivity. }
  destruct (decide (b = 0%Z)) as [->|Hb0].
  { rewrite Z.add_0_r. split; [|lia]. simpl.
    unfold deform at 2. simpl.
    destruct (truthy_float (envelope data)); simpl; reflexivity. }
  simpl. unfold deform, Reach.with_iterations, truthy_int; simpl.
  destruct (truthy_float (envelope data)); simpl; [|done].
  rewrite (proj2 (Z.eqb_neq (a + b) 0)), (proj2 (Z.eqb_neq a 0)),
    (proj2 (Z.eqb_neq b 0)) by lia. simpl.
  destruct (negb (steps data =? 0)%Z) eqn:Hsteps; simpl; [|done].
  destruct (truthy_float (strength data)); simpl; [|done].
  case_bool_decide; simpl; [done|].
  unfold allPositions; simpl.
  rewrite relax_add by lia.
  destruct (relax _ _ _ _ a _ P) as [Q|e] eqn:Hfirst; simpl.
  { destruct (relax _ _ _ _ b _ Q) as [R|e] eqn:Hsecond; simpl;
      [split; [reflexivity|intros _ _; reflexivity]|].
    exfalso.
    apply relax_Raise_iff in Hsecond as (_ & Hpos & Hsecond).
    destruct (sub_pass (MItMeshVertex_new (inputGeom data geom_index))
                (weighted_components_loop (weightValue data geom_index)
                   comps ∅)
                (envelope data) (strength data) (steps data) 0 P)
      as [P1|e1] eqn:Hpass.
    - assert (Reach.keys_ok (MItMeshVertex_new (inputGeom data geom_index))
                (weighted_components_loop (weightValue data geom_index)
                   comps ∅) P = true) as Hok.
      { eapply sub_pass_Ok_iff. by eexists. }
      destruct (relax_Ok_of_keys_ok _ _ (envelope data) (strength data)
                  a (steps data) _ Hok) as (Q' & HQ' & Hlen).
      rewrite Hfirst in HQ'. injection HQ' as <-.
      rewrite <-(keys_ok_length _ _ P Q Hlen) in Hok.
      apply (sub_pass_Ok_iff _ _ (envelope data) (strength data)
               (steps data) 0) in Hok as [R HR].
      congruence.
    - rewrite (proj2 (relax_Raise_iff _ _ _ _ a (steps data) P e1))
        in Hfirst; [done|].
      split; [lia|]. by split. }
  apply relax_Raise_iff in Hfirst as (_ & Hpos & Hfirst).
  rewrite (proj2 (relax_Raise_iff _ _ _ _ b (steps data) P e)).
  - split; [reflexivity|intros _ _; reflexivity].
  - split; [lia|]. by split.
Qed.

(** One and two iterations on the ring, against three. *)
Lemma deform_iterations_add_witness :
  geometry (deform (Reach.with_iterations (Ring.ring_data 1 0.5 0 3) (1 + 2))
              Ring.ring_iter 0).2
  = geometry
      (deform (Reach.with_iterations (Ring.ring_data 1 0.5 0 3) 2)
         (mkItGeometry (components Ring.ring_iter)
            (geometry
               (deform (Reach.with_iterations (Ring.ring_data 1 0.5 0 3) 1)
                  Ring.ring_iter 0).2))
         0).2.
Proof.
  assert (0 <= 1)%Z as H1 by lia. assert (0 <= 2)%Z as H2 by lia.
  exact (proj1 (deform_iterations_add (Ring.ring_data 1 0.5 0 3)
                  Ring.ring_iter 0 1 2 H1 H2)).
Defined.

(** ** What the relaxation reads *)

Section locality.
Context (it : MItMeshVertex) (cwd : dict float) (env str : float).
Implicit Types (P Q : MPointArray).

Local Abbreviation R := (Reach.region it cwd).

Lemma region_key v : is_Some (cwd !! v) -> v ∈ R.
Proof.
  intros Hv. unfold Reach.region. apply elem_of_app. left.
  by apply elem_of_dict_keys.
Qed.

Lemma region_connected u nbrs j :
  is_Some (cwd !! u) -> mesh it !! u = Some nbrs -> j ∈ nbrs -> j ∈ R.
Proof.
  intros Hu Hnbrs Hj. unfold Reach.region. apply elem_of_app. right.
  apply list_elem_of_In, in_flat_map. exists u. split.
  - by apply list_elem_of_In, elem_of_dict_keys.
  - rewrite Hnbrs. simpl. by apply list_elem_of_In.
Qed.

Lemma new_position_agree steps_value step P P' v :
  Reach.agree_on R P P' -> is_Some (cwd !! v) ->
  new_position it P cwd env str steps_value step v
  = new_position it P' cwd env str steps_value step v.
Proof.
  intros Hagree Hv. unfold Reach.agree_on in Hagree.
  rewrite Forall_forall in Hagree.
  unfold new_position, MPointArray_get.
  rewrite (Hagree v (region_key v Hv)).
  rewrite (average_position_agree it P P' v); [done|].
  intros nbrs j Hnbrs Hj. apply Hagree. by eapply region_connected.
Qed.

Lemma component_loop_agree steps_value step P P' keys
    (nb nb' : MPointArray) :
  Reach.agree_on R P P' ->
  (forall v, v ∈ keys -> is_Some (cwd !! v)) ->
  length nb = length P -> length nb' = length P' ->
  Reach.agree_on R nb nb' ->
  Reach.agree_results R
    (for_each keys (relax_component it P cwd env str steps_value step) nb)
    (for_each keys (relax_component it P' cwd env str steps_value step) nb').
Proof.
  intros Hagree. revert nb nb'.
  induction keys as [|v keys IH]; intros nb nb' Hkeys Hlen Hlen' Hnb; simpl;
    [done|].
  rewrite !relax_component_new_position.
  rewrite <-(new_position_agree steps_value step P P' v Hagree)
    by (apply Hkeys; by left).
  destruct (new_position it P cwd env str steps_value step v)
    as [p|e] eqn:Hp; simpl; [|done].
  pose proof (new_position_in_range _ _ _ _ _ _ _ _ _ Hp) as Hv.
  assert (v < length P') as Hv'.
  { unfold Reach.agree_on in Hagree. rewrite Forall_forall in Hagree.
    apply lookup_lt_is_Some.
    rewrite <-(Hagree v) by (apply region_key, Hkeys; by left).
    by apply lookup_lt_is_Some. }
  unfold MPointArray_set. rewrite !decide_True by lia. simpl.
  apply IH.
  - intros u Hu. apply Hkeys. by right.
  - by rewrite length_insert.
  - by rewrite length_insert.
  - unfold Reach.agree_on in *. rewrite Forall_forall in *.
    intros u Hu. destruct (decide (u = v)) as [->|Hne].
    + by rewrite !list_lookup_insert_eq by lia.
    + rewrite !list_lookup_insert_ne by done. by apply Hnb.
Qed.

Lemma sub_pass_agree steps_value step P P' :
  Reach.agree_on R P P' ->
  Reach.agree_results R
    (sub_pass it cwd env str steps_value step P)
    (sub_pass it cwd env str steps_value step P').
Proof.
  intros Hagree. apply component_loop_agree; try done.
  intros v Hv. by apply elem_of_dict_keys.
Qed.

Lemma for_each_agree {A} (xs : list A)
    (body : A -> MPointArray -> result MPointArray) P P' :
  (forall x Q Q',
     Reach.agree_on R Q Q' -> Reach.agree_results R (body x Q) (body x Q')) ->
  Reach.agree_on R P P' ->
  Reach.agree_results R (for_each xs body P) (for_each xs body P').
Proof.
  intros Hbody. revert P P'.
  induction xs as [|x xs IH]; intros P P' Hagree; simpl; [done|].
  specialize (Hbody x P P' Hagree).
  destruct (body x P) as [Q|e], (body x P') as [Q'|e']; simpl in *;
    try done.
  by apply IH.
Qed.

Lemma relax_agree iter_value steps_value P P' :
  Reach.agree_on R P P' ->
  Reach.agree_results R
    (relax it cwd env str iter_value steps_value P)
    (relax it cwd env str iter_value steps_value P').
Proof.
  apply for_each_agree. intros _ Q Q'.
  apply for_each_agree. intros step S S'. apply sub_pass_agree.
Qed.

End locality.

(** X12.  [deform] reads the points of the weighted vertices and of the
    vertices connected to them, and no others: on two geometries that agree
    on these it returns or raises the same, and the points it leaves agree
    on them again. *)
Theorem deform_reads_weighted_region data comps (P P' : MPointArray)
    geom_index :
  let region :=
    Reach.region (MItMeshVertex_new (get_input_mesh data geom_index))
      (get_weighted_componenents (mkItGeometry comps P) geom_index data).1 in
  Reach.agree_on region P P' ->
  (deform data (mkItGeometry comps P) geom_index).1
  = (deform data (mkItGeometry comps P') geom_index).1 /\
  Reach.agree_on region
    (geometry (deform data (mkItGeometry comps P) geom_index).2)
    (geometry (deform data (mkItGeometry comps P') geom_index).2).
Proof.
  intros region Hagree. unfold deform. simpl.
  destruct (truthy_float (envelope data)); simpl; [|done].
  destruct (truthy_int (iterations data)); simpl; [|done].
  destruct (truthy_int (steps data)); simpl; [|done].
  destruct (truthy_float (strength data)); simpl; [|done].
  case_bool_decide; simpl; [done|].
  unfold allPositions; simpl.
  pose proof (relax_agree (MItMeshVertex_new (get_input_mesh data geom_index))
                (weighted_components_loop (weightValue data geom_index)
                   comps ∅)
                (envelope data) (strength data) (iterations data)
                (steps data) P P' Hagree) as Hrun.
  unfold get_input_mesh in *.
  destruct (relax _ _ _ _ _ _ P) as [Q|e], (relax _ _ _ _ _ _ P') as [Q'|e'];
    simpl in *; try done.
  by subst.
Qed.

(** The ring, weight on vertex 0: vertex 2 is not read. *)
Lemma deform_reads_weighted_region_witness :
  (deform (Ring.ring_data 1 0.5 2 3)
     (mkItGeometry [0; 1; 2; 3]%nat Ring.ring_points) 0).1
  = (deform (Ring.ring_data 1 0.5 2 3)
       (mkItGeometry [0; 1; 2; 3]%nat
          [mkPoint 0 0 0; mkPoint 1 0 0; mkPoint 9 9 9; mkPoint 0 1 0]) 0).1.
Proof.
  refine (proj1 (deform_reads_weighted_region (Ring.ring_data 1 0.5 2 3)
                   [0; 1; 2; 3]%nat Ring.ring_points
                   [mkPoint 0 0 0; mkPoint 1 0 0; mkPoint 9 9 9; mkPoint 0 1 0]
                   0 _)).
  unfold Reach.agree_on. vm_compute. repeat constructor.
Defined.

(** ** A node nobody has touched *)

(** X13.  [node_init] declares the iteration count with default 0 (the
    strength with 0.5, the step count with 3).  A node whose three attributes
    are at these defaults is inert: whatever the envelope, the weights and
    the geometry, [deform] returns [False] at the second guard and leaves the
    iterator and the points alone. *)
Theorem untouched_node_is_inert env weights input :
  exists data,
    Attributes.untouched_block Attributes.node_init env weights input
    = Some data /\
    strength data = 0.5%float /\
    iterations data = 0%Z /\
    steps data = 3%Z /\
    forall geom_iter geom_index,
      deform data geom_iter geom_index = (Ok false, geom_iter).
Proof.
  eexists. split; [reflexivity|]. simpl.
  split; [reflexivity|]. split; [reflexivity|]. split; [reflexivity|].
  intros geom_iter geom_index. unfold deform. simpl.
  by destruct (truthy_float env).
Qed.

(** * Smoothing on the cube, in exact arithmetic *)

Section cube_algebra.
Local Open Scope Q_scope.
Import Exact.
Implicit Types (x r : nat -> Q) (b : Q).

Lemma sq_nonneg (t : Q) : 0 <= t * t.
Proof. nra. Qed.

Lemma sq_zero (t : Q) : t * t <= 0 -> t == 0.
Proof. intros. nra. Qed.

Lemma sum8_sq_nonneg r : 0 <= sum8 (sq r).
Proof.
  unfold sum8, sq.
  pose proof (sq_nonneg (r 0%nat)). pose proof (sq_nonneg (r 1%nat)).
  pose proof (sq_nonneg (r 2%nat)). pose proof (sq_nonneg (r 3%nat)).
  pose proof (sq_nonneg (r 4%nat)). pose proof (sq_nonneg (r 5%nat)).
  pose proof (sq_nonneg (r 6%nat)). pose proof (sq_nonneg (r 7%nat)).
  lra.
Qed.

Lemma spread_nonneg r v : 0 <= spread r v.
Proof.
  unfold spread.
  do 8 (try destruct v as [|v]);
    match goal with
    | |- 0 <= ?a * ?a + ?b * ?b + ?c * ?c =>
        pose proof (sq_nonneg a); pose proof (sq_nonneg b);
        pose proof (sq_nonneg c); lra
    end.
Qed.

Lemma sum8_spread_nonneg r : 0 <= sum8 (spread r).
Proof.
  unfold sum8.
  pose proof (spread_nonneg r 0). pose proof (spread_nonneg r 1).
  pose proof (spread_nonneg r 2). pose proof (spread_nonneg r 3).
  pose proof (spread_nonneg r 4). pose proof (spread_nonneg r 5).
  pose proof (spread_nonneg r 6). pose proof (spread_nonneg r 7).
  lra.
Qed.

(** What a sub-pass takes off the roughness of a coordinate: a multiple of
    the roughness of the residual itself, and a multiple of how unequal the
    residual is around each vertex. *)
Lemma roughness_gap x b :
  roughness x - roughness (pass b x)
  == b * (1 - b) * roughness (residual x)
     + b * (1 # 9) * sum8 (spread (residual x)).
Proof.
  cbv [roughness sum8 sq residual pass nbr_sum spread]. ring.
Qed.

Lemma roughness_nonneg x : 0 <= roughness x.
Proof. apply sum8_sq_nonneg. Qed.

Lemma pass_le x b : 0 <= b -> b <= 1 -> roughness (pass b x) <= roughness x.
Proof.
  intros Hb0 Hb1.
  pose proof (roughness_gap x b) as Hgap.
  assert (0 <= b * (1 - b) * roughness (residual x)) as H1.
  { apply Qmult_le_0_compat; [|apply roughness_nonneg].
    apply Qmult_le_0_compat; lra. }
  assert (0 <= b * (1 # 9) * sum8 (spread (residual x))) as H2.
  { apply Qmult_le_0_compat; [|apply sum8_spread_nonneg].
    apply Qmult_le_0_compat; lra. }
  lra.
Qed.

(** A coordinate whose residual is smooth is smooth. *)
Lemma residual_smooth x : roughness (residual x) <= 0 -> roughness x == 0.
Proof.
  intros Hflat.
  assert (forall v, (v < 8)%nat -> residual (residual x) v == 0) as Hzero.
  { unfold roughness, sum8, sq in Hflat.
    pose proof (sq_nonneg (residual (residual x) 0)).
    pose proof (sq_nonneg (residual (residual x) 1)).
    pose proof (sq_nonneg (residual (residual x) 2)).
    pose proof (sq_nonneg (residual (residual x) 3)).
    pose proof (sq_nonneg (residual (residual x) 4)).
    pose proof (sq_nonneg (residual (residual x) 5)).
    pose proof (sq_nonneg (residual (residual x) 6)).
    pose proof (sq_nonneg (residual (residual x) 7)).
    intros v Hv. apply sq_zero.
    do 8 (destruct v as [|v]; [lra|]). lia. }
  pose proof (Hzero 0%nat ltac:(lia)) as H0.
  pose proof (Hzero 1%nat ltac:(lia)) as H1.
  pose proof (Hzero 2%nat ltac:(lia)) as H2.
  pose proof (Hzero 3%nat ltac:(lia)) as H3.
  pose proof (Hzero 4%nat ltac:(lia)) as H4.
  pose proof (Hzero 5%nat ltac:(lia)) as H5.
  pose proof (Hzero 6%nat ltac:(lia)) as H6.
  pose proof (Hzero 7%nat ltac:(lia)) as H7.
  cbv [residual nbr_sum] in H0, H1, H2, H3, H4, H5, H6, H7.
  assert (residual x 0 == 0) as R0 by (cbv [residual nbr_sum]; lra).
  assert (residual x 1 == 0) as R1 by (cbv [residual nbr_sum]; lra).
  assert (residual x 2 == 0) as R2 by (cbv [residual nbr_sum]; lra).
  assert (residual x 3 == 0) as R3 by (cbv [residual nbr_sum]; lra).
  assert (residual x 4 == 0) as R4 by (cbv [residual nbr_sum]; lra).
  assert (residual x 5 == 0) as R5 by (cbv [residual nbr_sum]; lra).
  assert (residual x 6 == 0) as R6 by (cbv [residual nbr_sum]; lra).
  assert (residual x 7 == 0) as R7 by (cbv [residual nbr_sum]; lra).
  unfold roughness, sum8, sq.
  rewrite R0, R1, R2, R3, R4, R5, R6, R7. reflexivity.
Qed.

Lemma pass_lt x b :
  0 < b -> b < 1 -> 0 < roughness x -> roughness (pass b x) < roughness x.
Proof.
  intros Hb0 Hb1 Hrough.
  pose proof (roughness_gap x b) as Hgap.
  assert (0 <= b * (1 # 9) * sum8 (spread (residual x))) as H2.
  { apply Qmult_le_0_compat; [|apply sum8_spread_nonneg].
    apply Qmult_le_0_compat; lra. }
  destruct (Qlt_le_dec 0 (roughness (residual x))) as [Hpos|Hflat].
  - assert (0 < b * (1 - b) * roughness (residual x)) as H1.
    { apply Qmult_lt_0_compat; [|done].
      apply Qmult_lt_0_compat; lra. }
    lra.
  - apply residual_smooth in Hflat. lra.
Qed.

End cube_algebra.

Section cube_code.
Local Open Scope Q_scope.
Import Exact.

Local Abbreviation cube_vtx := (MItMeshVertex_new Cube.cube_mesh).
Local Abbreviation cube_weights :=
  (Exact.weighted_components_loop (fun _ => 1)
     [0; 1; 2; 3; 4; 5; 6; 7]%nat ∅).

Lemma divisor_share (d : Z) :
  (1 <= d)%Z ->
  ~ inject_Z d == 0 /\ 0 < 1 / inject_Z d /\ 1 / inject_Z d <= 1 /\
  ((2 <= d)%Z -> 1 / inject_Z d < 1).
Proof.
  intros Hd.
  assert (1 <= inject_Z d) as Hq.
  { change 1 with (inject_Z 1). by rewrite <-Zle_Qle. }
  split; [lra|]. split; [|split].
  - apply Qlt_shift_div_l; lra.
  - apply Qle_shift_div_r; lra.
  - intros Hd2.
    assert (2 <= inject_Z d) as Hq2.
    { change 2 with (inject_Z 2). by rewrite <-Zle_Qle. }
    apply Qlt_shift_div_r; lra.
Qed.

(** An eight-point buffer is its eight points. *)
Ltac eight_points P Hlen :=
  destruct P as [|[?x ?y ?z] P]; [discriminate Hlen|];
  destruct P as [|[?x ?y ?z] P]; [discriminate Hlen|];
  destruct P as [|[?x ?y ?z] P]; [discriminate Hlen|];
  destruct P as [|[?x ?y ?z] P]; [discriminate Hlen|];
  destruct P as [|[?x ?y ?z] P]; [discriminate Hlen|];
  destruct P as [|[?x ?y ?z] P]; [discriminate Hlen|];
  destruct P as [|[?x ?y ?z] P]; [discriminate Hlen|];
  destruct P as [|[?x ?y ?z] P]; [discriminate Hlen|];
  destruct P as [|? ?]; [clear Hlen|discriminate Hlen].

(** [deviation] computes the variance. *)
Lemma cube_deviation (P : QPointArray) :
  length P = 8%nat ->
  exists D, deviation Cube.cube_mesh P = Ok D /\ D == variance P.
Proof.
  intros Hlen. eight_points P Hlen.
  eexists. split.
  - cbv -[Qplus Qminus Qmult Qdiv inject_Z]. reflexivity.
  - cbv [variance roughness sum8 sq residual nbr_sum coordinate lookup
           list_lookup qx qy qz].
    field.
Qed.

(** A sub-pass on the cube is [pass] on each coordinate. *)
Lemma cube_sub_pass (P : QPointArray) (stps step : Z) :
  length P = 8%nat -> ~ inject_Z (stps - step) == 0 ->
  exists P',
    sub_pass cube_vtx cube_weights 1 1 stps step P = Ok P' /\
    length P' = 8%nat /\
    variance P'
    == roughness (pass (1 / inject_Z (stps - step)) (coordinate qx P))
       + roughness (pass (1 / inject_Z (stps - step)) (coordinate qy P))
       + roughness (pass (1 / inject_Z (stps - step)) (coordinate qz P)).
Proof.
  intros Hlen Hd. eight_points P Hlen.
  eexists. split; [|split].
  - cbv -[Qplus Qminus Qmult Qdiv inject_Z Z.sub]. reflexivity.
  - reflexivity.
  - cbv [variance roughness sum8 sq residual pass nbr_sum coordinate lookup
           list_lookup qx qy qz].
    field. exact Hd.
Qed.

Lemma cube_sub_pass_le (P : QPointArray) (stps step : Z) :
  length P = 8%nat -> (1 <= stps - step)%Z ->
  exists P',
    sub_pass cube_vtx cube_weights 1 1 stps step P = Ok P' /\
    length P' = 8%nat /\
    variance P' <= variance P /\
    ((2 <= stps - step)%Z -> 0 < variance P -> variance P' < variance P).
Proof.
  intros Hlen Hd.
  destruct (divisor_share _ Hd) as (Hne & Hb0 & Hb1 & Hb2).
  destruct (cube_sub_pass P stps step Hlen Hne) as (P' & Hrun & Hlen' & Hvar).
  exists P'. split; [done|]. split; [done|].
  set (b := 1 / inject_Z (stps - step)) in *.
  pose proof (pass_le (coordinate qx P) b ltac:(lra) Hb1) as Hx.
  pose proof (pass_le (coordinate qy P) b ltac:(lra) Hb1) as Hy.
  pose proof (pass_le (coordinate qz P) b ltac:(lra) Hb1) as Hz.
  split; [unfold variance at 2; lra|].
  intros Hd2 Hpos. specialize (Hb2 Hd2). unfold variance at 1 in Hpos.
  unfold variance at 2.
  destruct (Qlt_le_dec 0 (roughness (coordinate qx P))) as [Hrx|Hrx].
  { pose proof (pass_lt _ b Hb0 Hb2 Hrx). lra. }
  destruct (Qlt_le_dec 0 (roughness (coordinate qy P))) as [Hry|Hry].
  { pose proof (pass_lt _ b Hb0 Hb2 Hry). lra. }
  destruct (Qlt_le_dec 0 (roughness (coordinate qz P))) as [Hrz|Hrz].
  { pose proof (pass_lt _ b Hb0 Hb2 Hrz). lra. }
  lra.
Qed.

Lemma for_each_cons {A S} (x : A) (xs : list A)
    (body : A -> S -> result S) (s : S) :
  for_each (x :: xs) body s = body x s ≫= for_each xs body.
Proof. reflexivity. Qed.

Lemma range_elem (step n : Z) : step ∈ range n -> (0 <= step < n)%Z.
Proof.
  unfold range. intros (k & -> & Hk)%list_elem_of_fmap.
  apply elem_of_seq in Hk. lia.
Qed.

Lemma cube_sub_passes (steps_left : list Z) (stps : Z) (P : QPointArray) :
  length P = 8%nat ->
  (forall step, step ∈ steps_left -> (1 <= stps - step)%Z) ->
  exists P',
    for_each steps_left (sub_pass cube_vtx cube_weights 1 1 stps) P = Ok P' /\
    length P' = 8%nat /\
    variance P' <= variance P.
Proof.
  revert P.
  induction steps_left as [|step rest IH]; intros P Hlen Hsteps.
  - exists P. split; [done|]. split; [done|]. lra.
  - rewrite for_each_cons.
    destruct (cube_sub_pass_le P stps step Hlen) as (P1 & -> & Hlen1 & Hle & _).
    { apply Hsteps. by left. }
    cbn [mbind result_bind Py.bind].
    destruct (IH P1 Hlen1) as (P' & Hrun & Hlen' & Hle').
    { intros s Hs. apply Hsteps. by right. }
    exists P'. split; [done|]. split; [done|]. lra.
Qed.

(** An iteration on the cube never adds to the variance, and with two
    sub-passes or more takes some off whenever there is some. *)
Lemma cube_iteration (P : QPointArray) (stps : Z) :
  length P = 8%nat -> (1 <= stps)%Z ->
  exists P',
    iteration cube_vtx cube_weights 1 1 stps P = Ok P' /\
    length P' = 8%nat /\
    variance P' <= variance P /\
    ((2 <= stps)%Z -> 0 < variance P -> variance P' < variance P).
Proof.
  intros Hlen Hstps. unfold iteration.
  destruct (range_pos stps ltac:(lia)) as [rest Hrange].
  assert (forall step, step ∈ rest -> (1 <= stps - step)%Z) as Hrest.
  { intros step Hstep.
    assert (step ∈ range stps) as Hin by (rewrite Hrange; by right).
    apply range_elem in Hin. lia. }
  rewrite Hrange, for_each_cons.
  destruct (cube_sub_pass_le P stps 0 Hlen ltac:(lia))
    as (P1 & -> & Hlen1 & Hle & Hlt).
  cbn [mbind result_bind Py.bind].
  destruct (cube_sub_passes rest stps P1 Hlen1 Hrest)
    as (P' & Hrun & Hlen' & Hle').
  exists P'. split; [done|]. split; [done|]. split; [lra|].
  intros Hstps2 Hpos. specialize (Hlt ltac:(lia) Hpos). lra.
Qed.

Lemma exact_relax_succ it cwd env str (n : nat) stps (P : QPointArray) :
  relax it cwd env str (Z.of_nat (S n)) stps P
  = relax it cwd env str (Z.of_nat n) stps P ≫= iteration it cwd env str stps.
Proof. unfold relax. by rewrite range_succ, for_each_snoc. Qed.

Lemma cube_relax_total (P : QPointArray) (stps : Z) (n : nat) :
  length P = 8%nat -> (1 <= stps)%Z ->
  exists Pn,
    relax cube_vtx cube_weights 1 1 (Z.of_nat n) stps P = Ok Pn /\
    length Pn = 8%nat.
Proof.
  intros Hlen Hstps. induction n as [|n (Pn & Hrun & Hlen')].
  - by exists P.
  - rewrite exact_relax_succ, Hrun. cbn [mbind result_bind Py.bind].
    destruct (cube_iteration Pn stps Hlen' Hstps) as (P' & -> & ? & _).
    by exists P'.
Qed.

(** The points [deform] leaves are those the loops produce. *)
Lemma smoothed_relax (P : QPointArray) (stps : Z) (n : nat) :
  length P = 8%nat -> (1 <= stps)%Z ->
  relax cube_vtx cube_weights 1 1 (Z.of_nat n) stps P
  = Ok (smoothed n stps P).
Proof.
  intros Hlen Hstps.
  destruct (cube_relax_total P stps n Hlen Hstps) as (Pn & Hrun & _).
  rewrite Hrun. f_equal.
  destruct n as [|n].
  { change (Ok P = Ok Pn) in Hrun. injection Hrun as <-. reflexivity. }
  unfold smoothed, deform, truthy_int. simpl.
  rewrite (proj2 (Z.eqb_neq stps 0)) by lia. simpl.
  simpl in Hrun. by rewrite Hrun.
Qed.

(** What a sub-pass writes is between the vertex and the average of the
    vertices connected to it. *)
Lemma convex_step (lo hi u a b c : Q) (d : Z) :
  (1 <= d)%Z ->
  between lo hi u -> between lo hi a -> between lo hi b -> between lo hi c ->
  between lo hi
    (u + ((0 + a + b + c) / inject_Z 3 - u) * 1 * 1 * 1 / inject_Z d).
Proof.
  unfold between. intros Hd [Hu Hu'] [Ha Ha'] [Hb Hb'] [Hc Hc'].
  destruct (divisor_share d Hd) as (Hne & Hs0 & Hs1 & _).
  set (s := 1 / inject_Z d) in *.
  set (m := (1 # 3) * (a + b + c)).
  assert (u + ((0 + a + b + c) / inject_Z 3 - u) * 1 * 1 * 1 / inject_Z d
          == u + s * (m - u)) as ->.
  { unfold s, m. field. exact Hne. }
  assert (lo <= m /\ m <= hi) as [Hm Hm'] by (unfold m; split; lra).
  assert (0 <= (1 - s) * (u - lo)) by (apply Qmult_le_0_compat; lra).
  assert (0 <= s * (m - lo)) by (apply Qmult_le_0_compat; lra).
  assert (0 <= (1 - s) * (hi - u)) by (apply Qmult_le_0_compat; lra).
  assert (0 <= s * (hi - m)) by (apply Qmult_le_0_compat; lra).
  split; lra.
Qed.

Lemma cube_sub_pass_box (lo hi : QPoint) (P : QPointArray) (stps step : Z) :
  length P = 8%nat -> (1 <= stps - step)%Z -> in_box lo hi P ->
  forall P',
    sub_pass cube_vtx cube_weights 1 1 stps step P = Ok P' ->
    in_box lo hi P'.
Proof.
  intros Hlen Hd Hbox P' Hrun. eight_points P Hlen.
  unfold in_box in *.
  repeat match goal with
         | H : Forall _ (_ :: _) |- _ => apply Forall_cons in H as [? H]
         end.
  destruct_and!.
  cbv -[Qplus Qminus Qmult Qdiv inject_Z Z.sub] in Hrun.
  injection Hrun as <-.
  repeat (apply Forall_cons; split; [split; [|split]|]);
    [by apply convex_step..|by apply Forall_nil].
Qed.

Lemma cube_sub_passes_box (lo hi : QPoint) (steps_left : list Z) (stps : Z)
    (P : QPointArray) :
  length P = 8%nat ->
  (forall step, step ∈ steps_left -> (1 <= stps - step)%Z) ->
  in_box lo hi P ->
  forall P',
    for_each steps_left (sub_pass cube_vtx cube_weights 1 1 stps) P = Ok P' ->
    in_box lo hi P'.
Proof.
  revert P.
  induction steps_left as [|step rest IH]; intros P Hlen Hsteps Hbox P' Hrun.
  - by injection Hrun as <-.
  - rewrite for_each_cons in Hrun.
    destruct (cube_sub_pass_le P stps step Hlen) as (P1 & Hpass & Hlen1 & _).
    { apply Hsteps. by left. }
    rewrite Hpass in Hrun. cbn [mbind result_bind Py.bind] in Hrun.
    apply (IH P1); [done| |by eapply cube_sub_pass_box; [..|exact Hpass];
                              [done|apply Hsteps; by left|done]|done].
    intros s Hs. apply Hsteps. by right.
Qed.

Lemma cube_relax_box (lo hi : QPoint) (P : QPointArray) (stps : Z) (n : nat) :
  length P = 8%nat -> (1 <= stps)%Z -> in_box lo hi P ->
  in_box lo hi (smoothed n stps P).
Proof.
  intros Hlen Hstps Hbox. induction n as [|n IH]; [done|].
  pose proof (smoothed_relax P stps n Hlen Hstps) as Hn.
  pose proof (smoothed_relax P stps (S n) Hlen Hstps) as HSn.
  destruct (cube_relax_total P stps n Hlen Hstps) as (Pn & Hrun & Hlen').
  rewrite Hrun in Hn. injection Hn as ->.
  rewrite exact_relax_succ, Hrun in HSn.
  cbn [mbind result_bind Py.bind] in HSn. unfold iteration in HSn.
  eapply (cube_sub_passes_box lo hi (range stps) stps); [exact Hlen'| |done..].
  intros step Hstep%range_elem. lia.
Qed.

End cube_code.


